(** * Request-admission layer of the link shortener

    A shallow embedding of [src/lib/rate-limit.ts], [src/lib/api-response.ts]
    and [src/lib/cors.ts], and the properties of the specification that are
    settled on it; then the route handlers of [src/app/api/shorten], which
    call the three files, over their collaborators, and further properties
    of all of them.

    Conventions of the embedding:
    - a JavaScript [number] holding a counter, a limit or a millisecond
      timestamp is a [Z] (all such values are integers far below 2^53, where
      double arithmetic is exact); the two settings of a limiter are the
      integers that [parseInt] reads from the configuration;
    - [Date.now()] is an explicit argument [now] of the operation that reads
      the clock;
    - a [Map<string, V>] is a [gmap string V];
    - an optional field or parameter ([x?: T]) is an [option T]. *)

From Stdlib Require Import ZArith String Ascii List Lia Sorted.
From stdpp Require Import base decidable option numbers list strings gmap fin_maps pretty.

Local Open Scope Z_scope.
Local Open Scope string_scope.
Local Open Scope list_scope.

(** ** rate-limit.ts: shared interfaces *)

(** [interface RateLimitEntry { count: number; resetTime: number }] *)
Record RateLimitEntry := mkEntry {
  count : Z;
  resetTime : Z;
}.

(** [interface RateLimitResult { success; remaining; resetTime? }].
    The optional [resetTime] of a result is [res_resetTime]; the name
    [resetTime] is taken by the entry's field. *)
Record RateLimitResult := mkResult {
  success : bool;
  remaining : Z;
  res_resetTime : option Z;
}.

#[global] Instance RateLimitEntry_eq_dec : EqDecision RateLimitEntry.
Proof. solve_decision. Defined.

#[global] Instance RateLimitResult_eq_dec : EqDecision RateLimitResult.
Proof. solve_decision. Defined.

(** ** rate-limit.ts: [class InMemoryRateLimiter] *)

Module InMemoryRateLimiter.

(** The object: its private [store] and the two read-only settings. *)
Record t := mk {
  store : gmap string RateLimitEntry;
  maxRequests : Z;
  windowSeconds : Z;
}.

(** [constructor(maxRequests = 10, windowSeconds = 60)]: an empty store.
    The timer the constructor registers calls [cleanup] below. *)
Definition new (maxRequests windowSeconds : option Z) : t :=
  {| store := ∅;
     maxRequests := default 10 maxRequests;
     windowSeconds := default 60 windowSeconds |}.

(** [this.store.set(identifier, e)], and [entry.count++] on the entry
    object held by the map: both end with [identifier] bound to [e]. *)
Definition with_entry (this : t) (identifier : string) (e : RateLimitEntry) : t :=
  {| store := <[identifier := e]> (store this);
     maxRequests := maxRequests this;
     windowSeconds := windowSeconds this |}.

(** [async limit(identifier)], lines 39-60. Returns the result and the
    object after the call. *)
Definition limit (this : t) (now : Z) (identifier : string)
  : RateLimitResult * t :=
  let entry := store this !! identifier in
  let windowMs := windowSeconds this * 1000 in
  let fresh :=
    (mkResult true (maxRequests this - 1) None,
     with_entry this identifier (mkEntry 1 (now + windowMs))) in
  match entry with
  | None => fresh
  | Some entry =>
    if bool_decide (now > resetTime entry) then fresh
    else if bool_decide (count entry >= maxRequests this) then
      (mkResult false 0 (Some (resetTime entry)), this)
    else
      let entry' := mkEntry (count entry + 1) (resetTime entry) in
      (mkResult true (maxRequests this - count entry') None,
       with_entry this identifier entry')
  end.

(** [private cleanup()], lines 62-69: drop the entries whose window is
    over at [now]. *)
Definition cleanup (this : t) (now : Z) : t :=
  {| store := filter (λ kv, ¬ (now > resetTime kv.2)) (store this);
     maxRequests := maxRequests this;
     windowSeconds := windowSeconds this |}.

(** A call of [limit]: the clock reading and the identifier. *)
Definition Call : Type := Z * string.

(** A sequence of [limit] calls on one object, in order; each result is
    paired with the identifier it was returned for. *)
Fixpoint run (this : t) (calls : list Call)
  : list (string * RateLimitResult) * t :=
  match calls with
  | [] => ([], this)
  | (now, identifier) :: rest =>
    let '(r, this1) := limit this now identifier in
    let '(rs, this2) := run this1 rest in
    ((identifier, r) :: rs, this2)
  end.

(** The results returned for one identifier, in order. *)
Definition results_for (identifier : string)
  (rs : list (string * RateLimitResult)) : list RateLimitResult :=
  snd <$> filter (λ ir, ir.1 = identifier) rs.

(** The two shapes of result the limiter returns. *)
Definition admitted (remaining : Z) : RateLimitResult :=
  mkResult true remaining None.

Definition denied (resetTime : Z) : RateLimitResult :=
  mkResult false 0 (Some resetTime).

(** Two objects that [limit(identifier)] cannot tell apart: the same
    settings and the same entry (or none) for [identifier]. *)
Definition agree_on (identifier : string) (this1 this2 : t) : Prop :=
  store this1 !! identifier = store this2 !! identifier ∧
  maxRequests this1 = maxRequests this2 ∧
  windowSeconds this1 = windowSeconds this2.

(** The calls that remain when those for [identifier] are left out. *)
Definition without (identifier : string) (calls : list Call) : list Call :=
  filter (λ c, c.2 ≠ identifier) calls.

(** What happens to one object over time: a call of [limit], or a tick of
    the timer of the constructor, which runs [cleanup]. *)
Inductive Event :=
  | Limit (now : Z) (identifier : string)
  | Cleanup (now : Z).

Definition event_time (ev : Event) : Z :=
  match ev with
  | Limit now _ => now
  | Cleanup now => now
  end.

(** The events in order; the results of the calls are collected. *)
Fixpoint run_events (this : t) (events : list Event)
  : list (string * RateLimitResult) * t :=
  match events with
  | [] => ([], this)
  | Limit now identifier :: rest =>
    let '(r, this1) := limit this now identifier in
    let '(rs, this2) := run_events this1 rest in
    ((identifier, r) :: rs, this2)
  | Cleanup now :: rest => run_events (cleanup this now) rest
  end.

(** The calls among the events. *)
Fixpoint calls_of (events : list Event) : list Call :=
  match events with
  | [] => []
  | Limit now identifier :: rest => (now, identifier) :: calls_of rest
  | Cleanup _ :: rest => calls_of rest
  end.

(** Every stored count is at least 1 and at most the maximum (or 1, which
    the first call of a window stores whatever the maximum). *)
Definition counts_in_range (this : t) : Prop :=
  ∀ identifier entry,
    store this !! identifier = Some entry →
    1 <= count entry <= Z.max 1 (maxRequests this).

(** [swept] is [full] after some sweeps, the last one no later than
    [clock]: the same settings, and the same entries but for some that
    were over before [clock], which [swept] no longer has. *)
Definition swept_of (clock : Z) (swept full : t) : Prop :=
  maxRequests swept = maxRequests full ∧
  windowSeconds swept = windowSeconds full ∧
  ∀ identifier,
    store swept !! identifier = store full !! identifier ∨
    (store swept !! identifier = None ∧
     ∃ entry, store full !! identifier = Some entry ∧ resetTime entry < clock).

End InMemoryRateLimiter.

(** ** JavaScript values used by the three files *)

(** Truthiness of a [string | null | undefined] value: [null], [undefined]
    and the empty string are falsy. *)
Definition truthy (v : option string) : bool :=
  match v with
  | Some s => negb (String.eqb s "")
  | None => false
  end.

(** [Array.prototype.join] on an array of strings. *)
Fixpoint join (sep : string) (l : list string) : string :=
  match l with
  | [] => ""
  | [x] => x
  | x :: rest => x +:+ sep +:+ join sep rest
  end.

(** An exception value: [name] and [message] of the thrown object. *)
Record JsError := mkError {
  err_name : string;
  err_message : string;
}.

(** How an awaited promise settles, or how a block of statements ends. *)
Inductive Outcome (A : Type) : Type :=
  | Returns (a : A)
  | Throws (e : JsError).
Arguments Returns {A} a.
Arguments Throws {A} e.

(** ** rate-limit.ts: [class UpstashRateLimiter] *)

Module UpstashRateLimiter.

Record t := mk {
  url : string;
  token : string;
  maxRequests : Z;
  windowSeconds : Z;
}.

(** [process.env.X || ""] *)
Definition env_or_empty (v : option string) : string :=
  if truthy v then default "" v else "".

(** [constructor(maxRequests = 10, windowSeconds = 60)], reading the two
    environment variables. *)
Definition new (UPSTASH_REDIS_REST_URL UPSTASH_REDIS_REST_TOKEN : option string)
    (maxRequests windowSeconds : option Z) : t :=
  {| url := env_or_empty UPSTASH_REDIS_REST_URL;
     token := env_or_empty UPSTASH_REDIS_REST_TOKEN;
     maxRequests := default 10 maxRequests;
     windowSeconds := default 60 windowSeconds |}.

(** The arguments of a [fetch] call, as the class makes them. *)
Record FetchRequest := mkRequest {
  req_url : string;
  req_method : string;
  req_authorization : string;
}.

(** [(await response.json()) as { result: number }]: the parsed body,
    taken to have the shape the cast states, with an integer [result].
    The cast is not checked when the program runs: a body that parses
    and has no numeric [result] is not a value of this type, and what
    [limit] does with it is not described here. *)
Record IncrReply := mkReply { result : Z }.

(** The part of a [Response] the class reads. [json] is how the promise
    of [response.json()] settles. *)
Record FetchResponse := mkResponse {
  ok : bool;
  statusText : string;
  json : Outcome IncrReply;
}.

(** The store and the network, seen from the class: how the promise of
    each [fetch] settles. *)
Definition Fetch : Type := FetchRequest → Outcome FetchResponse.

(** A line written by [console.error(label, error)]. *)
Definition LogLine : Type := string * JsError.

(** Statements that may throw and may write to the console. *)
Definition M (A : Type) : Type := Outcome A * list LogLine.

#[global] Instance M_ret : MRet M := λ A a, (Returns a, []).
#[global] Instance M_bind : MBind M := λ A B f m,
  match m with
  | (Returns a, l) => let '(o, l') := f a in (o, l ++ l')
  | (Throws e, l) => (Throws e, l)
  end.

(** [await p] *)
Definition await {A} (p : Outcome A) : M A := (p, []).

(** [throw e] *)
Definition throw {A} (e : JsError) : M A := (Throws e, []).

(** [console.error(label, error)] *)
Definition console_error (label : string) (error : JsError) : M unit :=
  (Returns tt, [(label, error)]).

(** [try { body } catch (error) { handler }] *)
Definition try_catch {A} (body : M A) (handler : JsError → M A) : M A :=
  match body with
  | (Throws e, l) => let '(o, l') := handler e in (o, l ++ l')
  | done => done
  end.

(** [p.catch(() => {})]: a rejection becomes a fulfilment with
    [undefined]. *)
Definition catch_ignore {A} (p : Outcome A) : Outcome (option A) :=
  match p with
  | Returns a => Returns (Some a)
  | Throws _ => Returns None
  end.

(** [new Error(message)] *)
Definition Error (message : string) : JsError := mkError "Error" message.

Definition incr_request (this : t) (identifier : string) : FetchRequest :=
  let key := "rate_limit:" +:+ identifier in
  mkRequest (url this +:+ "/incr/" +:+ key) "GET" ("Bearer " +:+ token this).

Definition expire_request (this : t) (identifier : string) : FetchRequest :=
  let key := "rate_limit:" +:+ identifier in
  mkRequest (url this +:+ "/expire/" +:+ key +:+ "/" +:+ pretty (windowSeconds this))
            "GET" ("Bearer " +:+ token this).

(** [async limit(identifier)], lines 85-126. *)
Definition limit (fetch : Fetch) (this : t) (identifier : string)
  : M RateLimitResult :=
  try_catch
    (response ← await (fetch (incr_request this identifier));
     if negb (ok response) then
       throw (Error ("Redis error: " +:+ statusText response))
     else
       data ← await (json response);
       let count := result data in
       _ ← (if bool_decide (count = 1) then
              await (catch_ignore (fetch (expire_request this identifier)))
            else mret None);
       if bool_decide (count > maxRequests this) then
         mret (mkResult false 0 None)
       else
         mret (mkResult true (maxRequests this - count) None))
    (λ error,
       _ ← console_error "Upstash rate limiter error:" error;
       mret (mkResult true (maxRequests this) None)).

(** The exception the increment round trip ends with, if any: a rejected
    [fetch], a response that is not [ok], or a body that does not parse. *)
Definition incr_exception (fetch : Fetch) (this : t) (identifier : string)
  : option JsError :=
  match fetch (incr_request this identifier) with
  | Throws e => Some e
  | Returns response =>
    if negb (ok response) then
      Some (Error ("Redis error: " +:+ statusText response))
    else match json response with
         | Throws e => Some e
         | Returns _ => None
         end
  end.

(** The count the increment round trip reports, when it succeeds. *)
Definition incr_count (fetch : Fetch) (this : t) (identifier : string)
  : option Z :=
  match fetch (incr_request this identifier) with
  | Returns response =>
    if ok response then
      match json response with
      | Returns data => Some (result data)
      | Throws _ => None
      end
    else None
  | Throws _ => None
  end.

(** The rejection of the expire call, when the call is made (the count
    is 1) and its [fetch] rejects. *)
Definition expire_exception (fetch : Fetch) (this : t) (identifier : string)
  : option JsError :=
  match incr_count fetch this identifier with
  | Some count =>
    if bool_decide (count = 1) then
      match fetch (expire_request this identifier) with
      | Throws e => Some e
      | Returns _ => None
      end
    else None
  | None => None
  end.

(** The result computed from the count, lines 116-120. *)
Definition counted (this : t) (count : Z) : RateLimitResult :=
  if bool_decide (count > maxRequests this) then mkResult false 0 None
  else mkResult true (maxRequests this - count) None.

(** The result of the [catch] block, line 124. *)
Definition fail_open (this : t) : RateLimitResult :=
  mkResult true (maxRequests this) None.

End UpstashRateLimiter.

(** What a caller acts on: whether the request is allowed, and how many
    remain. *)
Definition verdict (r : RateLimitResult) : bool * Z :=
  (success r, remaining r).

(** ** api-response.ts *)

Module ApiResponse.

(** [interface ApiResponse<T>]: the envelope. A field that the object
    does not have is [None]. *)
Record t (T : Type) := mk {
  success : bool;
  data : option T;
  error : option string;
  code : option string;
}.
Arguments mk {T}.
Arguments success {T}.
Arguments data {T}.
Arguments error {T}.
Arguments code {T}.

(** What [NextResponse.json(body, { status })] is given: the envelope and
    the status code. *)
Record NextResponse (T : Type) := mkNext {
  body : t T;
  status : Z;
}.
Arguments mkNext {T}.
Arguments body {T}.
Arguments status {T}.

(** [...(code && { code })]: the spread adds the [code] property when
    [code] is truthy, and nothing when it is [undefined] or empty. *)
Definition spread_code (code : option string) : option string :=
  if truthy code then code else None.

(** [apiSuccess<T>(data, status = 200)] *)
Definition apiSuccess {T} (data : T) (status : option Z) : NextResponse T :=
  mkNext (mk true (Some data) None None) (default 200 status).

(** [apiError(message, status = 500, code?)]. The envelope of an error
    carries no data, whatever its type. *)
Definition apiError {T} (message : string) (status : option Z)
    (code : option string) : NextResponse T :=
  mkNext (mk false None (Some message) (spread_code code)) (default 500 status).

Definition apiBadRequest {T} (message code : option string) : NextResponse T :=
  apiError (default "Bad request" message) (Some 400) code.
Definition apiUnauthorized {T} (message code : option string) : NextResponse T :=
  apiError (default "Unauthorized" message) (Some 401) code.
Definition apiForbidden {T} (message code : option string) : NextResponse T :=
  apiError (default "Forbidden" message) (Some 403) code.
Definition apiNotFound {T} (message code : option string) : NextResponse T :=
  apiError (default "Not found" message) (Some 404) code.
Definition apiConflict {T} (message code : option string) : NextResponse T :=
  apiError (default "Conflict" message) (Some 409) code.
Definition apiTooManyRequests {T} (message code : option string) : NextResponse T :=
  apiError (default "Too many requests" message) (Some 429) code.
Definition apiInternalError {T} (message code : option string) : NextResponse T :=
  apiError (default "Internal server error" message) (Some 500) code.

(** Presence of the optional fields. *)
Definition has_data {T} (e : t T) : Prop := is_Some (data e).
Definition has_error {T} (e : t T) : Prop := is_Some (error e).
Definition has_code {T} (e : t T) : Prop := is_Some (code e).

(** *** What [NextResponse.json] sends

    [NextResponse.json(body, init)] is [Response.json(body, init)] of the
    Fetch standard: the body of the response is the text
    [JSON.stringify(body)], and the status is [init.status] after the
    checks of the [Response] constructor. A JSON text is kept as the
    value it denotes. *)
#[local] Set Warnings "-register-all".

Inductive Json :=
  | JNull
  | JBool (b : bool)
  | JNumber (n : Z)
  | JString (s : string)
  | JArray (items : list Json)
  | JObject (members : list (string * Json)).



(** [JSON.stringify] writes a property of an object when its value
    serialises to something, and leaves it out when the value is
    [undefined] (or a function, or a symbol). *)
Definition property (name : string) (v : option Json)
  : list (string * Json) :=
  match v with
  | Some j => [(name, j)]
  | None => []
  end.

(** How the status of [init] is taken: the conversion to
    [unsigned short] of Web IDL, on an integer. *)
Definition to_unsigned_short (n : Z) : Z := n `mod` 65536.

(** The null body statuses of the Fetch standard. *)
Definition null_body_status (s : Z) : bool :=
  bool_decide (s ∈ [101; 103; 204; 205; 304]).

(** The response sent: its status and the value of its body text. *)
Record JsonResponse := mkJson {
  json_status : Z;
  json_body : Json;
}.

(** How [NextResponse.json] ends when it makes no response. *)
Inductive Refusal :=
  | Rethrown (e : JsError)
      (* what serialising [data] threw *)
  | RangeError
      (* the status is outside 200..599 *)
  | TypeError.
      (* a body with a null body status *)

Inductive Sent :=
  | Responds (r : JsonResponse)
  | Refuses (why : Refusal).

Section Serialized.
Context {T : Type}.

(** What [JSON.stringify] makes of a [data] value when it meets it as
    the value of a property: an exception (a [BigInt], a cycle, a
    [toJSON] that throws), nothing ([undefined], a function, a symbol),
    or a JSON value. *)
Variable serialize : T → Outcome (option Json).

(** [JSON.stringify(envelope)]: the properties the object has, in the
    order of the object literals of lines 20-23 and 37-41. *)
Definition stringify (e : t T) : Outcome Json :=
  match
    match data e with
    | Some d => serialize d
    | None => Returns None
    end
  with
  | Throws err => Throws err
  | Returns d =>
    Returns (JObject (("success", JBool (success e))
                      :: property "data" d
                      ++ property "error" (JString <$> error e)
                      ++ property "code" (JString <$> code e)))
  end.

(** [NextResponse.json(envelope, { status })]: the envelope is
    serialised first; then the status is checked, for its range and,
    the body not being [null], for a null body status. *)
Definition NextResponse_json (r : NextResponse T) : Sent :=
  match stringify (body r) with
  | Throws err => Refuses (Rethrown err)
  | Returns j =>
    let s := to_unsigned_short (status r) in
    if bool_decide (s < 200 ∨ 599 < s) then Refuses RangeError
    else if null_body_status s then Refuses TypeError
    else Responds (mkJson s j)
  end.

End Serialized.

(** A fragment of the values of JavaScript: enough for [undefined],
    [null], booleans, integers, strings, and the arrays and plain objects
    made of them (the properties of an object in the order
    [JSON.stringify] visits them). *)
Inductive JsValue :=
  | JsUndefined
  | JsNull
  | JsBool (b : bool)
  | JsNumber (n : Z)
  | JsString (s : string)
  | JsArray (items : list JsValue)
  | JsObject (props : list (string * JsValue)).

(** [SerializeJSONProperty] of ECMAScript on that fragment: [undefined]
    serialises to nothing; as an item of an array it is written [null],
    as the value of a property it is left out with the property. *)
Fixpoint SerializeJSONProperty (v : JsValue) : option Json :=
  match v with
  | JsUndefined => None
  | JsNull => Some JNull
  | JsBool b => Some (JBool b)
  | JsNumber n => Some (JNumber n)
  | JsString s => Some (JString s)
  | JsArray items =>
    Some (JArray (map (λ item, default JNull (SerializeJSONProperty item)) items))
  | JsObject props =>
    Some (JObject
            (omap (λ p, pair p.1 <$> SerializeJSONProperty p.2) props))
  end.

(** No value of the fragment makes [JSON.stringify] throw. *)
Definition serialize_value (v : JsValue) : Outcome (option Json) :=
  Returns (SerializeJSONProperty v).

End ApiResponse.

(** ** cors.ts *)

Module Cors.

(** Objects live in a heap and are named by their address: a response
    handed to [withCorsHeaders] and the response it returns are two
    addresses, and so are their [Headers] objects. *)
Abbreviation loc := positive.

(** The body of a response is a stream (or [null]); the model keeps the
    identity of the stream, not its content. *)
Abbreviation StreamRef := positive.

(** The content of a [Headers] object: header names are kept in lower
    case, as [Headers] normalises them. *)
Abbreviation HeaderMap := (gmap string string).

Definition ascii_lower (c : ascii) : ascii :=
  let n := nat_of_ascii c in
  if ((65 <=? n) && (n <=? 90))%nat then ascii_of_nat (n + 32) else c.

Fixpoint lower (s : string) : string :=
  match s with
  | EmptyString => EmptyString
  | String c rest => String (ascii_lower c) (lower rest)
  end.

(** [headers.get(name)] and the content after [headers.set(name, value)]. *)
Definition header_get (h : HeaderMap) (name : string) : option string :=
  h !! lower name.
Definition header_set (h : HeaderMap) (name value : string) : HeaderMap :=
  <[lower name := value]> h.

(** [NextRequest]: only its headers are read. *)
Record NextRequest := mkNextRequest {
  req_headers : HeaderMap;
}.

(** A [NextResponse] object: its fields, with [headers] the address of
    its own [Headers] object. *)
Record NextResponse := mkNextResponse {
  body : option StreamRef;
  status : Z;
  statusText : string;
  headers : loc;
}.

Record Heap := mkHeap {
  headers_objs : gmap loc HeaderMap;
  responses : gmap loc NextResponse;
}.

(** Statements acting on the heap; [None] is a read through an address
    that holds no object, which a running program never does. *)
Definition St (A : Type) : Type := Heap → option (A * Heap).

#[global] Instance St_ret : MRet St := λ A a σ, Some (a, σ).
#[global] Instance St_bind : MBind St := λ A B f m σ,
  match m σ with
  | Some (a, σ') => f a σ'
  | None => None
  end.

Definition alloc_headers (h : HeaderMap) : St loc := λ σ,
  let l := fresh (dom (headers_objs σ)) in
  Some (l, mkHeap (<[l := h]> (headers_objs σ)) (responses σ)).

Definition alloc_response (r : NextResponse) : St loc := λ σ,
  let l := fresh (dom (responses σ)) in
  Some (l, mkHeap (headers_objs σ) (<[l := r]> (responses σ))).

Definition read_headers (l : loc) : St HeaderMap := λ σ,
  h ← headers_objs σ !! l; Some (h, σ).

Definition read_response (l : loc) : St NextResponse := λ σ,
  r ← responses σ !! l; Some (r, σ).

Definition write_headers (l : loc) (h : HeaderMap) : St unit := λ σ,
  Some (tt, mkHeap (<[l := h]> (headers_objs σ)) (responses σ)).

(** [new Headers(init)]: a new object with a copy of [init]'s entries. *)
Definition new_Headers (init : option loc) : St loc :=
  match init with
  | Some l => h ← read_headers l; alloc_headers h
  | None => alloc_headers ∅
  end.

(** The [init] argument of the [NextResponse] constructor. *)
Record ResponseInit := mkInit {
  init_status : option Z;
  init_statusText : option string;
  init_headers : option loc;
}.

(** [new NextResponse(body, init)]: the response gets a [Headers] object
    of its own, filled from [init.headers]. *)
Definition new_NextResponse (body : option StreamRef) (init : ResponseInit)
  : St loc :=
  h ← new_Headers (init_headers init);
  alloc_response
    (mkNextResponse body (default 200 (init_status init))
                    (default "" (init_statusText init)) h).

(** [response.headers.set(name, value)] *)
Definition headers_set (response : loc) (name value : string) : St unit :=
  r ← read_response response;
  h ← read_headers (headers r);
  write_headers (headers r) (header_set h name value).

(** The [filter(Boolean)] of line 12. *)
Definition filter_Boolean (l : list (option string)) : list string :=
  omap (λ v, if truthy v then v else None) l.

(** [origins.includes(origin)] for [origin : string | null]. *)
Definition includes (l : list string) (v : option string) : bool :=
  match v with
  | Some s => bool_decide (s ∈ l)
  | None => false
  end.

Definition ALLOWED_METHODS : list string :=
  ["GET"; "POST"; "PUT"; "DELETE"; "PATCH"; "OPTIONS"].

Definition ALLOWED_HEADERS : list string :=
  ["Content-Type"; "Authorization"; "X-Requested-With"; "Accept"; "Origin"].

Section WithEnv.
(** [process.env.NEXT_PUBLIC_APP_URL] *)
Variable NEXT_PUBLIC_APP_URL : option string.

Definition ALLOWED_ORIGINS : list string :=
  filter_Boolean
    [Some "http://localhost:3000"; Some "http://localhost:3001";
     NEXT_PUBLIC_APP_URL].

(** [withCorsHeaders(request, response?)], lines 30-56. Returns the
    address of [responseToModify]. The constructor of line 39 is taken to
    accept [response.body]; [call_withCorsHeaders] below has the call on
    a response whose body has been read. *)
Definition withCorsHeaders (request : NextRequest) (response : option loc)
  : St loc :=
  let origin := header_get (req_headers request) "origin" in
  let isAllowedOrigin := negb (truthy origin) || includes ALLOWED_ORIGINS origin in
  responseToModify ←
    match response with
    | Some response =>
      r ← read_response response;
      h ← new_Headers (Some (headers r));
      new_NextResponse (body r)
        (mkInit (Some (status r)) (Some (statusText r)) (Some h))
    | None => new_NextResponse None (mkInit (Some 204) None None)
    end;
  _ ← (if isAllowedOrigin && truthy origin then
         headers_set responseToModify "Access-Control-Allow-Origin"
                     (default "" origin)
       else mret tt);
  _ ← headers_set responseToModify "Access-Control-Allow-Methods"
                  (join ", " ALLOWED_METHODS);
  _ ← headers_set responseToModify "Access-Control-Allow-Headers"
                  (join ", " ALLOWED_HEADERS);
  _ ← headers_set responseToModify "Access-Control-Max-Age" "86400";
  mret responseToModify.

(** The headers [withCorsHeaders] leaves on the response it returns,
    when that response starts with the headers [h]: the effect of
    the four [set] calls of lines 47-53. *)
Definition cors_headers (request : NextRequest) (h : HeaderMap) : HeaderMap :=
  let origin := header_get (req_headers request) "origin" in
  let isAllowedOrigin := negb (truthy origin) || includes ALLOWED_ORIGINS origin in
  let h1 :=
    if isAllowedOrigin && truthy origin then
      header_set h "Access-Control-Allow-Origin" (default "" origin)
    else h in
  let h2 := header_set h1 "Access-Control-Allow-Methods" (join ", " ALLOWED_METHODS) in
  let h3 := header_set h2 "Access-Control-Allow-Headers" (join ", " ALLOWED_HEADERS) in
  header_set h3 "Access-Control-Max-Age" "86400".

(** [handleCorsPreFlight(request)] *)
Definition handleCorsPreFlight (request : NextRequest) : St loc :=
  response ← new_NextResponse None (mkInit (Some 204) None None);
  withCorsHeaders request (Some response).
End WithEnv.

(** The headers of the response at [r], read through the heap. *)
Definition headers_at (σ : Heap) (r : loc) : option HeaderMap :=
  resp ← responses σ !! r; headers_objs σ !! headers resp.

(** The headers of the response supplied to [withCorsHeaders]; none
    ([∅]) when no response is supplied. *)
Definition supplied_headers (σ : Heap) (response : option loc)
  : option HeaderMap :=
  match response with
  | Some r => headers_at σ r
  | None => Some ∅
  end.

(** Every object of [σ] is in [σ'] with the same content. *)
Definition preserved (σ σ' : Heap) : Prop :=
  (∀ l h, headers_objs σ !! l = Some h → headers_objs σ' !! l = Some h) ∧
  (∀ l r, responses σ !! l = Some r → responses σ' !! l = Some r).

(** *** Bodies that have been read

    The constructor of line 39 is that of [Response]: it takes the
    stream [response.body] as the body of the new response when that
    stream has neither been read nor been locked, and throws a
    [TypeError], making no response, when it has (Fetch standard, to
    extract a body). [withCorsHeaders] above is the call on a response
    whose body the constructor takes; [call_withCorsHeaders] is the call
    on any response, [used] being the streams that have been read or
    locked. *)
Definition body_usable (used : gset StreamRef) (body : option StreamRef)
  : bool :=
  match body with
  | Some stream => bool_decide (stream ∉ used)
  | None => true
  end.

(** The arguments of the constructor are evaluated before it runs: when
    it throws, [new Headers(response.headers)] of line 42 has made its
    object. *)
Definition call_withCorsHeaders (NEXT_PUBLIC_APP_URL : option string)
    (used : gset StreamRef) (request : NextRequest) (response : option loc)
  : St (Outcome loc) :=
  match response with
  | Some supplied =>
    r ← read_response supplied;
    if body_usable used (body r) then
      responseToModify ← withCorsHeaders NEXT_PUBLIC_APP_URL request response;
      mret (Returns responseToModify)
    else
      _ ← new_Headers (Some (headers r));
      mret (Throws (mkError "TypeError"
                      "Response body object should not be disturbed or locked"))
  | None =>
    responseToModify ← withCorsHeaders NEXT_PUBLIC_APP_URL request None;
    mret (Returns responseToModify)
  end.

End Cors.

(** ** app/api/shorten: the route handlers *)

Module Routes.

(** [String.prototype.charAt]: the character at [i], the empty string
    when there is none. *)
Definition charAt (s : string) (i : Z) : string :=
  if bool_decide (0 <= i) then
    match String.get (Z.to_nat i) s with
    | Some c => String c ""
    | None => ""
    end
  else "".

Definition chars : string :=
  "abcdefghijklmnopqrstuvwxyzABCDEFGHIJKLMNOPQRSTUVWXYZ0123456789".

(** Letters and digits, and those that [toLowerCase] leaves. *)
Definition is_alnum (c : ascii) : bool :=
  let n := nat_of_ascii c in
  (((97 <=? n) && (n <=? 122)) || ((65 <=? n) && (n <=? 90))
   || ((48 <=? n) && (n <=? 57)))%nat.

Definition is_lower_alnum (c : ascii) : bool :=
  let n := nat_of_ascii c in
  (((97 <=? n) && (n <=? 122)) || ((48 <=? n) && (n <=? 57)))%nat.

Definition all_chars (P : ascii → bool) (s : string) : bool :=
  forallb P (list_ascii_of_string s).

(** [String.prototype.toLowerCase] on the ASCII strings the handlers
    apply it to. *)
Definition toLowerCase (s : string) : string := Cors.lower s.

(** What [CreateLinkSchema.safeParse] yields: the parsed fields, or the
    messages of the issues. *)
Record CreateLinkData := mkCreateLinkData {
  cl_originalUrl : string;
  cl_customAlias : option string;
  cl_description : option string;
  cl_expiresAt : option string;
}.

Inductive SafeParse :=
  | ParseSuccess (data : CreateLinkData)
  | ParseFailure (issues : list string).

(** An operation of a collaborator on the world outside the three files:
    it returns or throws, and leaves a world. *)
Definition Op (W A : Type) : Type := W → Outcome A * W.

(** The collaborators of the handlers, which are not part of the three
    files: Clerk's [auth], the functions of [@/data/links-db], zod's
    [safeParse] of [CreateLinkSchema], the body of the request, the clock
    and [Math.random]. [W] is the state of that world, [Body] a parsed
    request body and [Link] a row of the links table, of which the
    handlers read five fields. [random_index] is the value of
    [Math.floor(Math.random() * chars.length)]; [expiresAt_of] is the time
    value of the row's date, when it has one. *)
Record Collaborators (W Body Link : Type) := mkCollaborators {
  auth : Op W (option string);
  limit : string → Op W RateLimitResult;
  request_json : Cors.NextRequest → Op W Body;
  safeParse : Body → SafeParse;
  checkCustomAliasExists : string → Op W bool;
  checkShortCodeExists : string → Op W bool;
  createLink : string → string → string → option string → option string → Op W Link;
  getUserLinks : string → Op W (list Link);
  getLinkByCode : string → Op W (option Link);
  incrementClicks : string → Op W unit;
  getLinkById : string → Op W (option Link);
  getLinkByIdAndUserId : string → string → Op W (option Link);
  deactivateLinkById : string → string → Op W unit;
  random_index : W → Z * W;
  Date_now : W → Z;
  userId_of : Link → string;
  originalUrl_of : Link → string;
  shortCode_of : Link → string;
  isActive_of : Link → bool;
  expiresAt_of : Link → option Z;
}.
Arguments auth {W Body Link}.
Arguments limit {W Body Link}.
Arguments request_json {W Body Link}.
Arguments safeParse {W Body Link}.
Arguments checkCustomAliasExists {W Body Link}.
Arguments checkShortCodeExists {W Body Link}.
Arguments createLink {W Body Link}.
Arguments getUserLinks {W Body Link}.
Arguments getLinkByCode {W Body Link}.
Arguments incrementClicks {W Body Link}.
Arguments getLinkById {W Body Link}.
Arguments getLinkByIdAndUserId {W Body Link}.
Arguments deactivateLinkById {W Body Link}.
Arguments random_index {W Body Link}.
Arguments Date_now {W Body Link}.
Arguments userId_of {W Body Link}.
Arguments originalUrl_of {W Body Link}.
Arguments shortCode_of {W Body Link}.
Arguments isActive_of {W Body Link}.
Arguments expiresAt_of {W Body Link}.

(** What a handler returns: [withCorsHeaders(request, response)] with the
    response an envelope constructor built, or a bare
    [NextResponse.json({ error }, { status })]. *)
Inductive Reply (T : Type) : Type :=
  | WithCors (request : Cors.NextRequest) (response : ApiResponse.NextResponse T)
  | Plain (error : string) (status : Z).
Arguments WithCors {T}.
Arguments Plain {T}.

Definition reply_status {T} (reply : Reply T) : Z :=
  match reply with
  | WithCors _ response => ApiResponse.status response
  | Plain _ status => status
  end.

(** The state a handler runs in: the world and the server's console. *)
Record State (W : Type) := mkState {
  world : W;
  console : list (string * JsError);
}.
Arguments mkState {W}.
Arguments world {W}.
Arguments console {W}.

(** The statements of a handler. [None] is a loop that has not ended
    within the number of rounds it was given. *)
Definition H (W A : Type) : Type := State W → option (Outcome A * State W).

#[global] Instance H_ret {W} : MRet (H W) := λ A a st, Some (Returns a, st).
#[global] Instance H_bind {W} : MBind (H W) := λ A B f m st,
  match m st with
  | Some (Returns a, st') => f a st'
  | Some (Throws e, st') => Some (Throws e, st')
  | None => None
  end.

(** [await op(...)] *)
Definition call {W A} (op : Op W A) : H W A := λ st,
  let '(o, w) := op (world st) in Some (o, mkState w (console st)).

(** [throw e] *)
Definition throw {W A} (e : JsError) : H W A := λ st, Some (Throws e, st).

(** [console.error(label, error)] *)
Definition console_error {W} (label : string) (error : JsError) : H W unit :=
  λ st, Some (Returns tt, mkState (world st) (console st ++ [(label, error)])).

(** [try { body } catch (error) { handler }] *)
Definition try_catch {W A} (body : H W A) (handler : JsError → H W A) : H W A :=
  λ st,
    match body st with
    | Some (Throws e, st') => handler e st'
    | other => other
    end.

(** A loop out of rounds. *)
Definition out_of_rounds {W A} : H W A := λ _, None.

(** Reading [.message] of [issues[0]] when there is no issue. *)
Definition no_issue : JsError :=
  mkError "TypeError" "Cannot read properties of undefined (reading 'message')".

(** The payloads of the success envelopes. *)
Record Created (Link : Type) := mkCreated {
  newUrl : Link;
  shortUrl : string;
}.
Arguments mkCreated {Link}.
Arguments newUrl {Link}.
Arguments shortUrl {Link}.

Record Listing (Link : Type) := mkListing { data : list Link }.
Arguments mkListing {Link}.
Arguments data {Link}.

Record Message := mkMessage { message : string }.

Record Redirect := mkRedirect {
  originalUrl : string;
  shortCode : string;
}.

Section Handlers.
Context {W Body Link : Type}.
Variable c : Collaborators W Body Link.

(** [Math.floor(Math.random() * chars.length)] *)
Definition draw : H W Z := λ st,
  let '(k, w) := random_index c (world st) in
  Some (Returns k, mkState w (console st)).

(** The loop of [generateShortCode], [n] rounds from [result]. *)
Fixpoint generate_from (n : nat) (result : string) : H W string :=
  match n with
  | O => mret result
  | S n =>
    k ← draw;
    generate_from n (result +:+ charAt chars k)
  end.

(** [generateShortCode(length = 8)], route.ts lines 28-35. *)
Definition generateShortCode (length : option Z) : H W string :=
  generate_from (Z.to_nat (default 8 length)) "".

(** The client key of a request, route.ts lines 52-54. *)
Definition client_ip (request : Cors.NextRequest) : string :=
  match Cors.header_get (Cors.req_headers request) "x-forwarded-for" with
  | Some ip => ip
  | None =>
    match Cors.header_get (Cors.req_headers request) "x-real-ip" with
    | Some ip => ip
    | None => "127.0.0.1"
    end
  end.

(** The loop of route.ts lines 98-105, for at most [rounds] rounds. *)
Fixpoint until_unused (rounds : nat) (shortCode : string) : H W string :=
  match rounds with
  | O => out_of_rounds
  | S rounds =>
    codeExists ← call (checkShortCodeExists c shortCode);
    if (codeExists : bool) then
      code ← generateShortCode None;
      until_unused rounds (toLowerCase code)
    else mret shortCode
  end.

(** [POST(request)] of app/api/shorten/route.ts, lines 49-131.
    [NEXT_PUBLIC_APP_URL] is the environment variable. *)
Definition POST (NEXT_PUBLIC_APP_URL : option string) (rounds : nat)
    (request : Cors.NextRequest) : H W (Reply (Created Link)) :=
  try_catch
    (let ip := client_ip request in
     r ← call (limit c ip);
     if negb (success r) then
       mret (WithCors request
               (ApiResponse.apiTooManyRequests
                  (Some "Too many requests. Please try again later.") None))
     else
       userId ← call (auth c);
       if negb (truthy userId) then
         mret (WithCors request
                 (ApiResponse.apiUnauthorized (Some "Authentication required") None))
       else
         body ← call (request_json c request);
         match safeParse c body with
         | ParseFailure issues =>
           match issues with
           | issue :: _ =>
             mret (WithCors request (ApiResponse.apiBadRequest (Some issue) None))
           | [] => throw no_issue
           end
         | ParseSuccess data =>
           let normalizedAlias := toLowerCase <$> cl_customAlias data in
           aliasExists ←
             (if truthy normalizedAlias then
                call (checkCustomAliasExists c (default "" normalizedAlias))
              else mret false);
           if (aliasExists : bool) then
             mret (WithCors request
                     (ApiResponse.apiConflict (Some "Custom alias already in use") None))
           else
             shortCode ←
               (if truthy normalizedAlias then
                  mret (toLowerCase (default "" normalizedAlias))
                else code ← generateShortCode None; mret (toLowerCase code));
             shortCode ←
               (if negb (truthy normalizedAlias) then until_unused rounds shortCode
                else mret shortCode);
             newUrl ← call (createLink c (default "" userId) (cl_originalUrl data)
                                       shortCode normalizedAlias (cl_description data));
             mret (WithCors request
                     (ApiResponse.apiSuccess
                        (mkCreated newUrl
                           (default "undefined" NEXT_PUBLIC_APP_URL +:+ "/l/" +:+ shortCode))
                        (Some 201)))
         end)
    (λ error,
       _ ← console_error "API error:" error;
       mret (WithCors request
               (ApiResponse.apiInternalError
                  (Some "An error occurred while processing your request") None))).

(** [GET(request)] of app/api/shorten/route.ts, lines 133-154. *)
Definition GET_links (request : Cors.NextRequest) : H W (Reply (Listing Link)) :=
  try_catch
    (userId ← call (auth c);
     if negb (truthy userId) then
       mret (WithCors request
               (ApiResponse.apiUnauthorized (Some "Authentication required") None))
     else
       urls ← call (getUserLinks c (default "" userId));
       mret (WithCors request (ApiResponse.apiSuccess (mkListing urls) None)))
    (λ error,
       _ ← console_error "API error:" error;
       mret (Plain "An error occurred while processing your request" 500)).

(** [DELETE(request, { params })], lines 167-205 of the same file; [id]
    is the awaited parameter. *)
Definition DELETE_link (request : Cors.NextRequest) (id : string)
    : H W (Reply Message) :=
  try_catch
    (userId ← call (auth c);
     if negb (truthy userId) then
       mret (WithCors request
               (ApiResponse.apiUnauthorized (Some "Authentication required") None))
     else
       url ← call (getLinkById c id);
       match url with
       | None =>
         mret (WithCors request
                 (ApiResponse.apiNotFound (Some "Shortened URL not found") None))
       | Some url =>
         if negb (String.eqb (userId_of c url) (default "" userId)) then
           mret (WithCors request
                   (ApiResponse.apiForbidden
                      (Some "This URL does not belong to you") None))
         else
           _ ← call (deactivateLinkById c id (default "" userId));
           mret (WithCors request
                   (ApiResponse.apiSuccess
                      (mkMessage "URL deleted successfully") None))
       end)
    (λ error,
       _ ← console_error "Delete API error:" error;
       mret (WithCors request
               (ApiResponse.apiInternalError (Some "Internal server error") None))).

(** [GET(request, { params })], lines 207-234 of the same file. *)
Definition GET_link (request : Cors.NextRequest) (id : string)
    : H W (Reply Link) :=
  try_catch
    (userId ← call (auth c);
     if negb (truthy userId) then
       mret (WithCors request
               (ApiResponse.apiUnauthorized (Some "Authentication required") None))
     else
       url ← call (getLinkByIdAndUserId c id (default "" userId));
       match url with
       | None =>
         mret (WithCors request
                 (ApiResponse.apiNotFound
                    (Some "Shortened URL not found or access denied") None))
       | Some url => mret (WithCors request (ApiResponse.apiSuccess url None))
       end)
    (λ error,
       _ ← console_error "Get URL details API error:" error;
       mret (WithCors request
               (ApiResponse.apiInternalError (Some "Internal server error") None))).

(** [new Date()], as its time value. *)
Definition new_Date : H W Z := λ st, Some (Returns (Date_now c (world st)), st).

(** [url.expiresAt && new Date() > new Date(url.expiresAt)] *)
Definition has_expired (url : Link) : H W bool :=
  match expiresAt_of c url with
  | Some expiresAt => now ← new_Date; mret (bool_decide (now > expiresAt))
  | None => mret false
  end.

(** [GET(request, { params })] of app/api/shorten/[shortCode]/route.ts,
    lines 6-44; [shortCode] is the awaited parameter. *)
Definition GET_redirect (request : Cors.NextRequest) (shortCode : string)
    : H W (Reply Redirect) :=
  try_catch
    (url ← call (getLinkByCode c shortCode);
     match url with
     | None =>
       mret (WithCors request
               (ApiResponse.apiNotFound (Some "Shortened URL not found") None))
     | Some url =>
       if negb (isActive_of c url) then
         mret (WithCors request
                 (ApiResponse.apiNotFound (Some "This link has been disabled") None))
       else
         expired ← has_expired url;
         if (expired : bool) then
           mret (WithCors request
                   (ApiResponse.apiNotFound (Some "This link has expired") None))
         else
           _ ← call (incrementClicks c shortCode);
           mret (WithCors request
                   (ApiResponse.apiSuccess
                      (mkRedirect (originalUrl_of c url) (shortCode_of c url))
                      None))
     end)
    (λ error,
       _ ← console_error "Redirect API error:" error;
       mret (WithCors request
               (ApiResponse.apiInternalError (Some "Internal server error") None))).

End Handlers.

End Routes.

(** ** A stand-in for the collaborators

    A small world to run the handlers in: who is signed in, whether the
    limiter admits, the clock, the links table, the clicks counted and the
    state of the random generator. [full] makes the table report every
    short code as used. *)

Module RoutesFake.
Import Routes.

Record FakeLink := mkFakeLink {
  fl_code : string;
  fl_owner : string;
  fl_url : string;
  fl_active : bool;
  fl_expires : option Z;
}.

Record FakeWorld := mkFakeWorld {
  fw_user : option string;
  fw_admitted : bool;
  fw_now : Z;
  fw_body : option CreateLinkData;
  fw_links : list FakeLink;
  fw_clicks : list string;
  fw_seed : Z;
}.

Definition with_links (w : FakeWorld) (links : list FakeLink) : FakeWorld :=
  mkFakeWorld (fw_user w) (fw_admitted w) (fw_now w) (fw_body w) links
              (fw_clicks w) (fw_seed w).

Definition with_click (w : FakeWorld) (code : string) : FakeWorld :=
  mkFakeWorld (fw_user w) (fw_admitted w) (fw_now w) (fw_body w) (fw_links w)
              (code :: fw_clicks w) (fw_seed w).

Definition with_seed (w : FakeWorld) (seed : Z) : FakeWorld :=
  mkFakeWorld (fw_user w) (fw_admitted w) (fw_now w) (fw_body w) (fw_links w)
              (fw_clicks w) seed.

Definition find_link (code : string) (w : FakeWorld) : option FakeLink :=
  List.find (λ l, String.eqb (fl_code l) code) (fw_links w).

Definition fake (full : bool)
  : Collaborators FakeWorld (option CreateLinkData) FakeLink :=
  {| auth := λ w, (Returns (fw_user w), w);
     limit := λ _ w, (Returns (mkResult (fw_admitted w) 0 None), w);
     request_json := λ _ w, (Returns (fw_body w), w);
     safeParse := λ body,
       match body with
       | Some data => ParseSuccess data
       | None => ParseFailure ["Invalid URL format"]
       end;
     checkCustomAliasExists := λ alias w,
       (Returns (bool_decide (is_Some (find_link alias w))), w);
     checkShortCodeExists := λ code w,
       (Returns (full || bool_decide (is_Some (find_link code w))), w);
     createLink := λ user url code _ _ w,
       let link := mkFakeLink code user url true None in
       (Returns link, with_links w (link :: fw_links w));
     getUserLinks := λ user w,
       (Returns (List.filter (λ l, String.eqb (fl_owner l) user) (fw_links w)), w);
     getLinkByCode := λ code w, (Returns (find_link code w), w);
     incrementClicks := λ code w, (Returns tt, with_click w code);
     getLinkById := λ id w, (Returns (find_link id w), w);
     getLinkByIdAndUserId := λ id user w,
       (Returns (List.find (λ l, String.eqb (fl_code l) id && String.eqb (fl_owner l) user)
                           (fw_links w)), w);
     deactivateLinkById := λ id _ w,
       (Returns tt,
        with_links w
          (List.map (λ l, if String.eqb (fl_code l) id
                          then mkFakeLink (fl_code l) (fl_owner l) (fl_url l) false
                                          (fl_expires l)
                          else l)
                    (fw_links w)));
     random_index := λ w, (fw_seed w `mod` 62, with_seed w (fw_seed w + 7));
     Date_now := fw_now;
     userId_of := fl_owner;
     originalUrl_of := fl_url;
     shortCode_of := fl_code;
     isActive_of := fl_active;
     expiresAt_of := fl_expires |}.

(** One link of [user-1], expiring at 5000, and the clock at 1000. *)
Definition a_world : FakeWorld :=
  mkFakeWorld (Some "user-1") true 1000
    (Some (mkCreateLinkData "https://example.com/page" (Some "My-Alias") None None))
    [mkFakeLink "abc123" "user-1" "https://example.com" true (Some 5000)]
    [] 3.

End RoutesFake.

(** * Properties *)

(** ** The in-memory limiter *)

Section InMemoryRateLimiter_props.
Import InMemoryRateLimiter.

Implicit Types (this : t) (identifier : string) (now : Z).

(** The four paths of [limit]. *)

Lemma limit_new this now identifier :
  store this !! identifier = None →
  limit this now identifier =
    (admitted (maxRequests this - 1),
     with_entry this identifier (mkEntry 1 (now + windowSeconds this * 1000))).
Proof. intros H. unfold limit. by rewrite H. Qed.

Lemma limit_expired this now identifier entry :
  store this !! identifier = Some entry →
  now > resetTime entry →
  limit this now identifier =
    (admitted (maxRequests this - 1),
     with_entry this identifier (mkEntry 1 (now + windowSeconds this * 1000))).
Proof. intros H Hnow. unfold limit. rewrite H. by rewrite bool_decide_eq_true_2. Qed.

Lemma limit_denied this now identifier entry :
  store this !! identifier = Some entry →
  now <= resetTime entry →
  count entry >= maxRequests this →
  limit this now identifier = (denied (resetTime entry), this).
Proof.
  intros H Hnow Hfull. unfold limit. rewrite H.
  rewrite bool_decide_eq_false_2 by lia.
  by rewrite bool_decide_eq_true_2.
Qed.

Lemma limit_counted this now identifier entry :
  store this !! identifier = Some entry →
  now <= resetTime entry →
  count entry < maxRequests this →
  limit this now identifier =
    (admitted (maxRequests this - (count entry + 1)),
     with_entry this identifier (mkEntry (count entry + 1) (resetTime entry))).
Proof.
  intros H Hnow Hroom. unfold limit. rewrite H.
  by rewrite !bool_decide_eq_false_2 by lia.
Qed.

(** [limit] never changes the settings. *)
Lemma limit_settings this now identifier :
  maxRequests (limit this now identifier).2 = maxRequests this ∧
  windowSeconds (limit this now identifier).2 = windowSeconds this.
Proof.
  unfold limit. destruct (store this !! identifier) as [e|]; [|done].
  repeat case_bool_decide; done.
Qed.

Lemma with_entry_twice this identifier e1 e2 :
  with_entry (with_entry this identifier e1) identifier e2 =
  with_entry this identifier e2.
Proof. unfold with_entry; simpl. by rewrite insert_insert_eq. Qed.

Lemma with_entry_same this identifier e :
  store this !! identifier = Some e → with_entry this identifier e = this.
Proof.
  intros H. destruct this as [s m w]; unfold with_entry; simpl in *.
  by rewrite insert_id.
Qed.

Lemma run_app this calls1 calls2 :
  run this (calls1 ++ calls2) =
    ((run this calls1).1 ++ (run (run this calls1).2 calls2).1,
     (run (run this calls1).2 calls2).2).
Proof.
  revert this. induction calls1 as [|[now identifier] calls1 IH]; intros this; simpl.
  - by destruct (run this calls2).
  - destruct (limit this now identifier) as [r this1].
    rewrite IH. destruct (run this1 calls1) as [rs1 this2]; simpl.
    by destruct (run this2 calls2).
Qed.

Lemma run_cons this now identifier rest :
  run this ((now, identifier) :: rest) =
    ((identifier, (limit this now identifier).1)
       :: (run (limit this now identifier).2 rest).1,
     (run (limit this now identifier).2 rest).2).
Proof.
  cbn [run]. destruct (limit this now identifier) as [r this1].
  cbn [fst snd]. by destruct (run this1 rest).
Qed.

(** Calls for one identifier while its window lasts and the count has
    room: each is admitted and counted. *)
Lemma run_within_window identifier R ts :
  ∀ this c,
    store this !! identifier = Some (mkEntry c R) →
    Forall (λ now, now <= R) ts →
    c + Z.of_nat (length ts) <= maxRequests this →
    run this ((λ now, (now, identifier)) <$> ts) =
      ((λ k, (identifier, admitted (maxRequests this - k)))
         <$> seqZ (c + 1) (Z.of_nat (length ts)),
       with_entry this identifier (mkEntry (c + Z.of_nat (length ts)) R)).
Proof.
  induction ts as [|now ts IH]; intros this c Hc Hts Hroom.
  - simpl. rewrite Z.add_0_r. by rewrite with_entry_same.
  - apply Forall_cons in Hts as [Hnow Hts].
    rewrite length_cons, Nat2Z.inj_succ in *.
    rewrite fmap_cons; simpl run.
    rewrite (limit_counted _ _ _ _ Hc) by (simpl; lia). simpl count; simpl resetTime.
    rewrite (IH _ (c + 1)); simpl.
    + rewrite with_entry_twice.
      rewrite (seqZ_cons (c + 1)) by lia.
      rewrite fmap_cons.
      replace (Z.succ (c + 1)) with (c + 1 + 1) by lia.
      replace (Z.pred (Z.succ (Z.of_nat (length ts)))) with (Z.of_nat (length ts)) by lia.
      replace (c + 1 + Z.of_nat (length ts)) with (c + Z.succ (Z.of_nat (length ts))) by lia.
      done.
    + by rewrite lookup_insert_eq.
    + done.
    + lia.
Qed.

(** [cleanup] keeps the entries whose window still runs, and no other. *)
Lemma cleanup_lookup this now identifier entry :
  store (cleanup this now) !! identifier = Some entry ↔
  store this !! identifier = Some entry ∧ now <= resetTime entry.
Proof.
  unfold cleanup; simpl. rewrite map_lookup_filter_Some; simpl.
  split; intros [H1 H2]; (split; [done | lia]).
Qed.

(** A sweep does not change what later calls return. *)
Lemma cleanup_limit this now now' identifier :
  now <= now' →
  (limit (cleanup this now) now' identifier).1 = (limit this now' identifier).1.
Proof.
  intros Hlater. unfold limit.
  destruct (store (cleanup this now) !! identifier) as [e|] eqn:Hc.
  - apply cleanup_lookup in Hc as [-> _]. simpl.
    by repeat case_bool_decide.
  - destruct (store this !! identifier) as [e|] eqn:He; [|done].
    rewrite bool_decide_eq_true_2; [done|].
    destruct (decide (now <= resetTime e)) as [Hlive|Hdead]; [|lia].
    assert (store (cleanup this now) !! identifier = Some e) as Hin
      by (by apply cleanup_lookup).
    rewrite Hin in Hc. discriminate.
Qed.

(** Sanity checks on the end-to-end example of the specification:
    limiter(max=2, window=60s), three calls for one identifier. *)
Example limit_example_max2 :
  (run (new (Some 2) (Some 60)) [(1000, "A"); (1001, "A"); (1002, "A")]).1 =
    [("A", admitted 1); ("A", admitted 0); ("A", denied 61000)].
Proof. vm_compute. reflexivity. Qed.

(** C1. Starting with no entry for [identifier], on a limiter with
    [maxRequests = N >= 1] (the repository's tests require the configured
    maximum to be positive): when the first call is made at [t0] and the
    next [N] calls at times no later than [t0 + windowSeconds * 1000], the
    calls 1..N are admitted with [remaining = N - k] on call [k] (so
    [N - 1] down to [0]), and call [N + 1] is denied with [remaining = 0]. *)
Theorem first_N_admitted_then_denied this identifier t0 ts :
  1 <= maxRequests this →
  store this !! identifier = None →
  length ts = Z.to_nat (maxRequests this) →
  Forall (λ now, now <= t0 + windowSeconds this * 1000) ts →
  (run this ((t0, identifier) :: ((λ now, (now, identifier)) <$> ts))).1 =
    ((λ k, (identifier, admitted (maxRequests this - k)))
       <$> seqZ 1 (maxRequests this))
    ++ [(identifier, mkResult false 0 (Some (t0 + windowSeconds this * 1000)))].
Proof.
  intros HN Hnone Hlen Hts.
  set (R := t0 + windowSeconds this * 1000) in *.
  destruct (decide (ts = [])) as [->|Hne]; [simpl in Hlen; lia|].
  destruct (exists_last Hne) as (ts' & tl & ->).
  rewrite length_app in Hlen; simpl in Hlen.
  apply Forall_app in Hts as [Hts' Htl]. rewrite Forall_singleton in Htl.
  simpl run. rewrite (limit_new _ _ _ Hnone). fold R.
  rewrite fmap_app, run_app.
  rewrite (run_within_window identifier R ts' _ 1);
    [| by simpl; rewrite lookup_insert_eq | done | simpl; lia].
  simpl fst; simpl snd. rewrite with_entry_twice.
  rewrite (limit_denied _ tl identifier (mkEntry (1 + Z.of_nat (length ts')) R));
    [| by simpl; rewrite lookup_insert_eq | simpl; lia | simpl; lia].
  simpl.
  rewrite (seqZ_cons 1 (maxRequests this)) by lia. rewrite fmap_cons.
  replace (Z.pred (maxRequests this)) with (Z.of_nat (length ts')) by lia.
  done.
Qed.

(** C3 (as amended). For an identifier with an entry: a call at a time
    [now] strictly after the entry's [resetTime] replaces the entry with
    [{count: 1, resetTime: now + windowSeconds * 1000}] and returns
    [{success: true, remaining: maxRequests - 1}]; a call at a time up to
    the entry's [resetTime], that time itself included, counts in the
    running window: the entry keeps its [resetTime], and the call is
    denied when the count has reached [maxRequests] and counted
    otherwise. *)
Theorem window_elapsed_resets this now identifier entry :
  store this !! identifier = Some entry →
  (resetTime entry < now →
   limit this now identifier =
     (mkResult true (maxRequests this - 1) None,
      with_entry this identifier (mkEntry 1 (now + windowSeconds this * 1000))) ∧
   store (limit this now identifier).2 !! identifier =
     Some (mkEntry 1 (now + windowSeconds this * 1000))) ∧
  (now <= resetTime entry →
   limit this now identifier =
     (if bool_decide (count entry >= maxRequests this) then
        (mkResult false 0 (Some (resetTime entry)), this)
      else
        (mkResult true (maxRequests this - (count entry + 1)) None,
         with_entry this identifier
           (mkEntry (count entry + 1) (resetTime entry)))) ∧
   resetTime <$> store (limit this now identifier).2 !! identifier =
     Some (resetTime entry)).
Proof.
  intros Hentry. split.
  - intros Hlate.
    rewrite (limit_expired _ _ _ _ Hentry) by lia.
    split; [done|]. simpl. by rewrite lookup_insert_eq.
  - intros Hwithin. case_bool_decide as Hfull.
    + rewrite (limit_denied _ _ _ _ Hentry) by lia.
      split; [done|]. simpl. by rewrite Hentry.
    + rewrite (limit_counted _ _ _ _ Hentry) by lia.
      split; [done|]. simpl. by rewrite lookup_insert_eq.
Qed.

(** C9. A denied call leaves the limiter as it was, entry included, and
    the [resetTime] it returns is the stored entry's. *)
Theorem denied_call_changes_nothing this now identifier r this' :
  limit this now identifier = (r, this') →
  success r = false →
  this' = this ∧
  ∃ entry, store this !! identifier = Some entry ∧
           store this' !! identifier = Some entry ∧
           r = mkResult false 0 (Some (resetTime entry)).
Proof.
  unfold limit. destruct (store this !! identifier) as [entry|] eqn:Hentry.
  - repeat case_bool_decide; intros [= <- <-]; simpl; intros Hr;
      try discriminate.
    split; [done|]. by exists entry.
  - intros [= <- <-]; simpl. discriminate.
Qed.

(** A call for one identifier leaves every other identifier's entry. *)
Lemma limit_other_entry this now id1 id2 :
  id1 ≠ id2 →
  store (limit this now id1).2 !! id2 = store this !! id2.
Proof.
  intros Hne. unfold limit. destruct (store this !! id1) as [e|]; simpl.
  - repeat case_bool_decide; simpl; by rewrite ?lookup_insert_ne.
  - by rewrite lookup_insert_ne.
Qed.

(** What [limit(identifier)] returns, and the entry it leaves, depend on
    the settings and on the entry of [identifier] only. *)
Lemma limit_agree this1 this2 now identifier :
  agree_on identifier this1 this2 →
  (limit this1 now identifier).1 = (limit this2 now identifier).1 ∧
  agree_on identifier (limit this1 now identifier).2 (limit this2 now identifier).2.
Proof.
  intros (Hentry & Hmax & Hwin). unfold limit, agree_on.
  rewrite <- Hentry, <- Hmax, <- Hwin.
  destruct (store this1 !! identifier) as [e|] eqn:He; simpl.
  - repeat case_bool_decide; simpl; rewrite ?lookup_insert_eq;
      repeat split; congruence.
  - rewrite !lookup_insert_eq; auto.
Qed.

Lemma limit_agree_other this1 this2 now id1 id2 :
  id1 ≠ id2 →
  agree_on id2 this1 this2 →
  agree_on id2 (limit this1 now id1).2 this2.
Proof.
  intros Hne (Hentry & Hmax & Hwin). unfold agree_on.
  rewrite limit_other_entry by done.
  destruct (limit_settings this1 now id1) as [-> ->]. auto.
Qed.

Lemma agree_on_sym identifier this1 this2 :
  agree_on identifier this1 this2 → agree_on identifier this2 this1.
Proof. intros (? & ? & ?). by repeat split. Qed.

Lemma results_for_cons identifier id r rs :
  results_for identifier ((id, r) :: rs) =
    if decide (id = identifier) then r :: results_for identifier rs
    else results_for identifier rs.
Proof.
  unfold results_for. rewrite filter_cons; simpl.
  by destruct (decide (id = identifier)).
Qed.

(** Leaving out the calls for [id1] changes neither the results for
    [id2] nor the entry [id2] ends with. *)
Lemma run_without id1 id2 calls :
  id1 ≠ id2 →
  ∀ this1 this2,
    agree_on id2 this1 this2 →
    results_for id2 (run this1 calls).1 =
      results_for id2 (run this2 (without id1 calls)).1 ∧
    agree_on id2 (run this1 calls).2 (run this2 (without id1 calls)).2.
Proof.
  intros Hne. induction calls as [|[now id] calls IH]; intros this1 this2 Hag.
  - done.
  - unfold without in *. rewrite filter_cons.
    cbn [snd]. destruct (decide (id ≠ id1)) as [Hid|Hid].
    + rewrite !run_cons. cbn [fst snd]. rewrite !results_for_cons.
      destruct (decide (id = id2)) as [->|Hid2].
      * destruct (limit_agree this1 this2 now id2 Hag) as [Hr Hag'].
        destruct (IH _ _ Hag') as [IH1 IH2].
        split; [by rewrite Hr, IH1 | done].
      * apply IH.
        apply agree_on_sym, limit_agree_other; [done|].
        apply agree_on_sym, limit_agree_other; done.
    + assert (id = id1) as -> by (destruct (decide (id = id1)); [done|by destruct Hid]).
      rewrite run_cons. cbn [fst snd].
      rewrite results_for_cons, decide_False by done.
      apply IH. by apply limit_agree_other.
Qed.

Lemma agree_on_refl identifier this : agree_on identifier this this.
Proof. by unfold agree_on. Qed.

(** C8. For distinct identifiers [id1] and [id2]: a call [limit(id1)]
    leaves the stored entry of [id2] as it was, and in every sequence of
    calls the results returned for [id2], and the entry [id2] ends with,
    are those of the same sequence with the [id1] calls left out. *)
Theorem distinct_identifiers_independent id1 id2 :
  id1 ≠ id2 →
  (∀ this now, store (limit this now id1).2 !! id2 = store this !! id2) ∧
  (∀ this calls,
     results_for id2 (run this calls).1 =
       results_for id2 (run this (without id1 calls)).1 ∧
     store (run this calls).2 !! id2 =
       store (run this (without id1 calls)).2 !! id2).
Proof.
  intros Hne. split.
  - intros this now. by apply limit_other_entry.
  - intros this calls.
    destruct (run_without id1 id2 calls Hne this this (agree_on_refl _ _))
      as [Hres (Hentry & _)].
    done.
Qed.

Lemma first_N_admitted_then_denied_witness :
  (run (new (Some 2) (Some 60)) [(1000, "A"); (1001, "A"); (1002, "A")]).1 =
    [("A", admitted 1); ("A", admitted 0);
     ("A", mkResult false 0 (Some 61000))].
Proof.
  apply (first_N_admitted_then_denied (new (Some 2) (Some 60)) "A" 1000
           [1001; 1002]).
  - simpl. lia.
  - reflexivity.
  - reflexivity.
  - repeat constructor; simpl; lia.
Defined.

(** C3, as stated, fails when the call is made exactly at the entry's
    [resetTime]: with [maxRequests = 10], [windowSeconds = 60] and the
    entry [{count: 1, resetTime: 1000}], the call at [now = 1000] counts
    in the running window. *)
Lemma reset_at_boundary_counterexample :
  let this := mk {["a" := mkEntry 1 1000]} 10 60 in
  store this !! "a" = Some (mkEntry 1 1000) ∧
  resetTime (mkEntry 1 1000) <= 1000 ∧
  limit this 1000 "a" =
    (mkResult true 8 None, with_entry this "a" (mkEntry 2 1000)) ∧
  (limit this 1000 "a").1 ≠ mkResult true (maxRequests this - 1) None ∧
  store (limit this 1000 "a").2 !! "a" ≠
    Some (mkEntry 1 (1000 + windowSeconds this * 1000)).
Proof.
  intros this.
  assert (Hentry : store this !! "a" = Some (mkEntry 1 1000)) by reflexivity.
  assert (Hcall : limit this 1000 "a" =
            (mkResult true 8 None, with_entry this "a" (mkEntry 2 1000))).
  { rewrite (limit_counted this 1000 "a" _ Hentry); simpl; [done | lia | lia]. }
  split; [done|]. split; [simpl; lia|]. split; [done|].
  rewrite Hcall. simpl. rewrite lookup_insert_eq.
  split; discriminate.
Qed.

Lemma window_elapsed_resets_witness :
  let this := mk {["a" := mkEntry 1 1000]} 10 60 in
  (limit this 1001 "a" =
     (mkResult true 9 None, with_entry this "a" (mkEntry 1 61001)) ∧
   store (limit this 1001 "a").2 !! "a" = Some (mkEntry 1 61001)) ∧
  (limit this 1000 "a" =
     (mkResult true 8 None, with_entry this "a" (mkEntry 2 1000)) ∧
   resetTime <$> store (limit this 1000 "a").2 !! "a" = Some 1000).
Proof.
  intros this.
  assert (Hentry : store this !! "a" = Some (mkEntry 1 1000)) by reflexivity.
  split.
  - apply (proj1 (window_elapsed_resets this 1001 "a" (mkEntry 1 1000) Hentry)).
    simpl. lia.
  - apply (proj2 (window_elapsed_resets this 1000 "a" (mkEntry 1 1000) Hentry)).
    simpl. lia.
Defined.

Lemma denied_call_changes_nothing_witness :
  let this := mk {["a" := mkEntry 2 1000]} 2 60 in
  this = this ∧
  ∃ entry, store this !! "a" = Some entry ∧
           store this !! "a" = Some entry ∧
           mkResult false 0 (Some 1000) =
             mkResult false 0 (Some (resetTime entry)).
Proof.
  intros this.
  apply (denied_call_changes_nothing this 500 "a"
           (mkResult false 0 (Some 1000)) this).
  - vm_compute. reflexivity.
  - reflexivity.
Defined.

Lemma distinct_identifiers_independent_witness :
  (∀ this now, store (limit this now "a").2 !! "b" = store this !! "b") ∧
  (∀ this calls,
     results_for "b" (run this calls).1 =
       results_for "b" (run this (without "a" calls)).1 ∧
     store (run this calls).2 !! "b" =
       store (run this (without "a" calls)).2 !! "b").
Proof.
  apply (distinct_identifiers_independent "a" "b"). discriminate.
Defined.

(** The interleaving of the isolation test: two calls for [user-a] do
    not use up the allowance of [user-b]. *)
Example isolation_example :
  results_for "user-b"
    (run (new (Some 2) (Some 60))
         [(1, "user-a"); (2, "user-a"); (3, "user-b")]).1 =
    [admitted 1].
Proof. vm_compute. reflexivity. Qed.

End InMemoryRateLimiter_props.

(** ** The Upstash limiter *)

Section UpstashRateLimiter_props.
Import UpstashRateLimiter.

Implicit Types (fetch : Fetch) (this : t) (identifier : string).

(** [limit] when the increment round trip ends with an exception: the
    [catch] block logs it and answers. *)
Lemma limit_incr_exception fetch this identifier e :
  incr_exception fetch this identifier = Some e →
  limit fetch this identifier =
    (Returns (fail_open this), [("Upstash rate limiter error:", e)]).
Proof.
  unfold incr_exception, limit.
  destruct (fetch (incr_request this identifier)) as [response|e']; simpl.
  - destruct (ok response); simpl.
    + destruct (json response) as [data|e']; simpl; [done|].
      by intros [= ->].
    + by intros [= ->].
  - by intros [= ->].
Qed.

(** [limit] when the increment round trip reports a count: the answer is
    computed from the count, whatever becomes of the expire call. *)
Lemma limit_incr_count fetch this identifier count :
  incr_count fetch this identifier = Some count →
  limit fetch this identifier = (Returns (counted this count), []).
Proof.
  unfold incr_count, limit, counted.
  destruct (fetch (incr_request this identifier)) as [response|e']; simpl; [|done].
  destruct (ok response); simpl; [|done].
  destruct (json response) as [data|e']; simpl; [|done].
  intros [= <-].
  destruct (fetch (expire_request this identifier));
    repeat case_bool_decide; reflexivity.
Qed.

(** The increment round trip either reports a count or ends with an
    exception. *)
Lemma incr_count_or_exception fetch this identifier :
  (∃ count, incr_count fetch this identifier = Some count ∧
            incr_exception fetch this identifier = None) ∨
  (∃ e, incr_exception fetch this identifier = Some e ∧
        incr_count fetch this identifier = None).
Proof.
  unfold incr_count, incr_exception.
  destruct (fetch (incr_request this identifier)) as [response|e']; [|eauto].
  destruct (ok response); simpl; [|eauto].
  destruct (json response); eauto.
Qed.

(** C6. When the increment call answers with a count: above
    [maxRequests] the result is [{success: false, remaining: 0}] without
    [resetTime]; otherwise it is
    [{success: true, remaining: maxRequests - count}]. Nothing is logged. *)
Theorem upstash_result_from_count fetch this identifier response data :
  fetch (incr_request this identifier) = Returns response →
  ok response = true →
  json response = Returns data →
  (result data > maxRequests this →
     limit fetch this identifier = (Returns (mkResult false 0 None), [])) ∧
  (result data <= maxRequests this →
     limit fetch this identifier =
       (Returns (mkResult true (maxRequests this - result data) None), [])).
Proof.
  intros Hfetch Hok Hjson.
  assert (Hcount : incr_count fetch this identifier = Some (result data)).
  { unfold incr_count. by rewrite Hfetch, Hok, Hjson. }
  rewrite (limit_incr_count _ _ _ _ Hcount). unfold counted.
  split; intros H; case_bool_decide; (done || lia).
Qed.

Lemma upstash_result_from_count_witness :
  let this := mk "https://redis.example" "secret" 10 60 in
  let reply n := mkResponse true "OK" (Returns (mkReply n)) in
  (11 > 10 → limit (λ _, Returns (reply 11)) this "a" =
               (Returns (mkResult false 0 None), [])) ∧
  (11 <= 10 → limit (λ _, Returns (reply 11)) this "a" =
                (Returns (mkResult true (10 - 11) None), [])).
Proof.
  intros this reply.
  apply (upstash_result_from_count (λ _, Returns (reply 11)) this "a"
           (reply 11) (mkReply 11)); reflexivity.
Defined.

Example upstash_allowed_example :
  let this := mk "https://redis.example" "secret" 10 60 in
  limit (λ _, Returns (mkResponse true "OK" (Returns (mkReply 10)))) this "a" =
    (Returns (mkResult true 0 None), []).
Proof. reflexivity. Qed.

(** C2, as stated, fails when the exception is the rejection of the
    expire call: the increment answers 1, the expire call rejects, and
    the result is [{success: true, remaining: 9}] for [maxRequests = 10],
    with nothing logged. *)
Lemma expire_rejection_counterexample :
  let this := mk "https://redis.example" "secret" 10 60 in
  let fetch : Fetch := λ req,
    if String.eqb (req_url req) "https://redis.example/incr/rate_limit:a"
    then Returns (mkResponse true "OK" (Returns (mkReply 1)))
    else Throws (mkError "TypeError" "fetch failed") in
  fetch (expire_request this "a") = Throws (mkError "TypeError" "fetch failed") ∧
  expire_exception fetch this "a" = Some (mkError "TypeError" "fetch failed") ∧
  limit fetch this "a" = (Returns (mkResult true 9 None), []) ∧
  (limit fetch this "a").1 ≠ Returns (mkResult true (maxRequests this) None).
Proof.
  intros this fetch.
  assert (Hcall : limit fetch this "a" = (Returns (mkResult true 9 None), []))
    by (vm_compute; reflexivity).
  split; [vm_compute; reflexivity|].
  split; [vm_compute; reflexivity|].
  split; [done|].
  rewrite Hcall. simpl. discriminate.
Qed.

(** C2 (as amended). [limit] never raises. When the increment round trip
    ends with an exception (the [fetch] rejects, the response is not
    [ok], or its body does not parse), the exception is logged and the
    result is exactly [{success: true, remaining: maxRequests}]. A
    rejection of the expire call is swallowed: the result is then the one
    computed from the count, which is 1. *)
Theorem upstash_fail_open fetch this identifier :
  (∃ r, (limit fetch this identifier).1 = Returns r) ∧
  (∀ e, incr_exception fetch this identifier = Some e →
        limit fetch this identifier =
          (Returns (mkResult true (maxRequests this) None),
           [("Upstash rate limiter error:", e)])) ∧
  (∀ e, expire_exception fetch this identifier = Some e →
        limit fetch this identifier = (Returns (counted this 1), [])).
Proof.
  split; [|split].
  - destruct (incr_count_or_exception fetch this identifier)
      as [(count & Hcount & _) | (e & He & _)].
    + rewrite (limit_incr_count _ _ _ _ Hcount). eauto.
    + rewrite (limit_incr_exception _ _ _ _ He). eauto.
  - intros e He. by apply limit_incr_exception.
  - intros e. unfold expire_exception.
    destruct (incr_count fetch this identifier) as [count|] eqn:Hcount; [|done].
    case_bool_decide as Hone; [|done]. subst count. intros _.
    by apply limit_incr_count.
Qed.

Lemma upstash_fail_open_witness :
  let this := mk "https://redis.example" "secret" 10 60 in
  let down : Fetch := λ _, Throws (mkError "TypeError" "fetch failed") in
  limit down this "a" =
    (Returns (mkResult true 10 None),
     [("Upstash rate limiter error:", mkError "TypeError" "fetch failed")]).
Proof.
  intros this down.
  apply (proj1 (proj2 (upstash_fail_open down this "a"))).
  reflexivity.
Defined.

(** A response that is not [ok] takes the same path. *)
Example upstash_not_ok_example :
  let this := mk "https://redis.example" "secret" 10 60 in
  limit (λ _, Returns (mkResponse false "Unauthorized" (Returns (mkReply 3))))
        this "a" =
    (Returns (mkResult true 10 None),
     [("Upstash rate limiter error:", Error "Redis error: Unauthorized")]).
Proof. reflexivity. Qed.

End UpstashRateLimiter_props.

(** ** The response envelope *)

Section ApiResponse_props.
Import ApiResponse.
Context {T : Type}.

(** The two examples of the specification. *)
Example apiSuccess_example (d : T) :
  apiSuccess d (Some 201) = mkNext (mk true (Some d) None None) 201.
Proof. reflexivity. Qed.

Example apiError_example :
  @apiError T "x" (Some 409) (Some "CODE") =
    mkNext (mk false None (Some "x") (Some "CODE")) 409.
Proof. reflexivity. Qed.

(** The object handed to [NextResponse.json]: that of [apiSuccess] has
    [success: true] and the properties [data] (whatever its value) and
    neither [error] nor [code]; that of [apiError] has [success: false]
    with [error] and no [data]. *)
Lemma envelope_object_invariant :
  (∀ (d : T) status,
     let e := body (apiSuccess d status) in
     success e = true ∧ data e = Some d ∧ has_data e ∧
     ¬ has_error e ∧ ¬ has_code e) ∧
  (∀ message status c,
     let e := body (@apiError T message status c) in
     success e = false ∧ error e = Some message ∧ has_error e ∧
     ¬ has_data e) ∧
  (∀ e : t T,
     (∃ d status, e = body (apiSuccess d status)) ∨
     (∃ message status c, e = body (apiError message status c)) →
     ¬ (has_data e ∧ has_error e) ∧
     (has_data e ∨ has_error e) ∧
     (has_code e → success e = false ∧ has_error e)).
Proof.
  unfold has_data, has_error, has_code.
  split; [|split].
  - intros d status; simpl.
    repeat split; eauto; intros [? [=]].
  - intros message status c; simpl.
    repeat split; eauto; intros [? [=]].
  - intros e [(d & status & ->) | (message & status & c & ->)]; simpl.
    + split; [|split].
      * intros [_ [? [=]]].
      * left; eauto.
      * intros [? [=]].
    + split; [|split].
      * intros [[? [=]] _].
      * right; eauto.
      * intros _; split; eauto.
Qed.



(** C10. With the empty string as [code], [apiError] builds the same
    response as with no [code]: the envelope has no [code] field. *)
Theorem empty_code_is_omitted message status :
  @apiError T message status (Some "") = apiError message status None ∧
  code (body (@apiError T message status (Some ""))) = None ∧
  ¬ has_code (body (@apiError T message status (Some ""))).
Proof.
  repeat split. intros [? [=]].
Qed.

(** A [code] that is not empty is kept. *)
Lemma nonempty_code_is_kept message status c :
  c ≠ "" →
  code (body (@apiError T message status (Some c))) = Some c.
Proof.
  intros Hc. simpl. unfold spread_code, truthy.
  destruct (String.eqb_spec c ""); [done|reflexivity].
Qed.

End ApiResponse_props.

Section ApiResponse_cases.
Import ApiResponse.



(** The two examples of the specification, as sent. *)
Example apiSuccess_sent_example :
  NextResponse_json serialize_value
    (apiSuccess (JsObject [("id", JsNumber 1)]) (Some 201)) =
    Responds (mkJson 201 (JObject [("success", JBool true);
                                   ("data", JObject [("id", JNumber 1)])])).
Proof. reflexivity. Qed.

Example apiError_sent_example :
  NextResponse_json serialize_value
    (@apiError JsValue "x" (Some 409) (Some "CODE")) =
    Responds (mkJson 409 (JObject [("success", JBool false);
                                   ("error", JString "x");
                                   ("code", JString "CODE")])).
Proof. reflexivity. Qed.

(** A status is taken modulo 65536 before it is checked. *)
Example apiError_status_examples :
  NextResponse_json serialize_value (@apiError JsValue "x" (Some 99) None) =
    Refuses RangeError ∧
  NextResponse_json serialize_value (@apiError JsValue "x" (Some 600) None) =
    Refuses RangeError ∧
  NextResponse_json serialize_value (@apiError JsValue "x" (Some 304) None) =
    Refuses TypeError ∧
  json_status <$>
    match NextResponse_json serialize_value
            (@apiError JsValue "x" (Some 66036) None) with
    | Responds r => Some r
    | Refuses _ => None
    end = Some 500.
Proof. repeat split. Qed.

End ApiResponse_cases.

(** ** The CORS boundary *)

Section Cors_props.
Import Cors.

Variable NEXT_PUBLIC_APP_URL : option string.

Implicit Types (σ : Heap) (h : HeaderMap) (request : NextRequest).

Lemma St_bind_eq {A B} (m : St A) (f : A → St B) σ a σ' :
  m σ = Some (a, σ') → (m ≫= f) σ = f a σ'.
Proof. intros H. unfold mbind, St_bind. by rewrite H. Qed.

Lemma read_response_eq σ r R :
  responses σ !! r = Some R → read_response r σ = Some (R, σ).
Proof. intros H. unfold read_response. by rewrite H. Qed.

Lemma read_headers_eq σ l h :
  headers_objs σ !! l = Some h → read_headers l σ = Some (h, σ).
Proof. intros H. unfold read_headers. by rewrite H. Qed.

Lemma headers_set_eq σ r R h name value :
  responses σ !! r = Some R →
  headers_objs σ !! headers R = Some h →
  headers_set r name value σ =
    Some (tt, mkHeap (<[headers R := header_set h name value]> (headers_objs σ))
                     (responses σ)).
Proof.
  intros HR Hh. unfold headers_set.
  rewrite (St_bind_eq _ _ _ _ _ (read_response_eq _ _ _ HR)).
  by rewrite (St_bind_eq _ _ _ _ _ (read_headers_eq _ _ _ Hh)).
Qed.

Lemma new_Headers_copy σ l h :
  headers_objs σ !! l = Some h →
  new_Headers (Some l) σ =
    Some (fresh (dom (headers_objs σ)),
          mkHeap (<[fresh (dom (headers_objs σ)) := h]> (headers_objs σ))
                 (responses σ)).
Proof.
  intros Hh. unfold new_Headers.
  by rewrite (St_bind_eq _ _ _ _ _ (read_headers_eq _ _ _ Hh)).
Qed.

Lemma new_NextResponse_copy σ l h b s st :
  headers_objs σ !! l = Some h →
  new_NextResponse b (mkInit (Some s) (Some st) (Some l)) σ =
    Some (fresh (dom (responses σ)),
          mkHeap (<[fresh (dom (headers_objs σ)) := h]> (headers_objs σ))
                 (<[fresh (dom (responses σ)) :=
                      mkNextResponse b s st (fresh (dom (headers_objs σ)))]>
                    (responses σ))).
Proof.
  intros Hh. unfold new_NextResponse. simpl.
  by rewrite (St_bind_eq _ _ _ _ _ (new_Headers_copy _ _ _ Hh)).
Qed.

Lemma new_NextResponse_empty σ s :
  new_NextResponse None (mkInit (Some s) None None) σ =
    Some (fresh (dom (responses σ)),
          mkHeap (<[fresh (dom (headers_objs σ)) := ∅]> (headers_objs σ))
                 (<[fresh (dom (responses σ)) :=
                      mkNextResponse None s "" (fresh (dom (headers_objs σ)))]>
                    (responses σ))).
Proof. reflexivity. Qed.

(** The four [set] calls on a response [r'] whose headers are [h]. *)
Lemma set_cors_headers σ request r' R' h :
  responses σ !! r' = Some R' →
  headers_objs σ !! headers R' = Some h →
  let origin := header_get (req_headers request) "origin" in
  let isAllowedOrigin :=
    negb (truthy origin) || includes (ALLOWED_ORIGINS NEXT_PUBLIC_APP_URL) origin in
  ((if isAllowedOrigin && truthy origin then
      headers_set r' "Access-Control-Allow-Origin" (default "" origin)
    else mret tt) ≫= λ _,
   headers_set r' "Access-Control-Allow-Methods" (join ", " ALLOWED_METHODS) ≫= λ _,
   headers_set r' "Access-Control-Allow-Headers" (join ", " ALLOWED_HEADERS) ≫= λ _,
   headers_set r' "Access-Control-Max-Age" "86400" ≫= λ _,
   mret r') σ =
  Some (r', mkHeap (<[headers R' := cors_headers NEXT_PUBLIC_APP_URL request h]>
                      (headers_objs σ))
                   (responses σ)).
Proof.
  intros HR Hh origin allowed. unfold cors_headers.
  fold origin. fold allowed.
  destruct (allowed && truthy origin).
  - erewrite St_bind_eq by (by apply headers_set_eq).
    erewrite St_bind_eq
      by (apply (headers_set_eq _ r' R'); simpl; [done | apply lookup_insert_eq]).
    simpl. rewrite insert_insert_eq.
    erewrite St_bind_eq
      by (apply (headers_set_eq _ r' R'); simpl; [done | apply lookup_insert_eq]).
    simpl. rewrite insert_insert_eq.
    erewrite St_bind_eq
      by (apply (headers_set_eq _ r' R'); simpl; [done | apply lookup_insert_eq]).
    simpl. rewrite insert_insert_eq. reflexivity.
  - erewrite St_bind_eq by reflexivity.
    erewrite St_bind_eq by (by apply headers_set_eq).
    erewrite St_bind_eq
      by (apply (headers_set_eq _ r' R'); simpl; [done | apply lookup_insert_eq]).
    simpl. rewrite insert_insert_eq.
    erewrite St_bind_eq
      by (apply (headers_set_eq _ r' R'); simpl; [done | apply lookup_insert_eq]).
    simpl. rewrite insert_insert_eq. reflexivity.
Qed.

Lemma fresh_headers_None σ : headers_objs σ !! fresh (dom (headers_objs σ)) = None.
Proof. apply not_elem_of_dom, is_fresh. Qed.

Lemma fresh_response_None σ : responses σ !! fresh (dom (responses σ)) = None.
Proof. apply not_elem_of_dom, is_fresh. Qed.

(** [withCorsHeaders] on a supplied response: two [Headers] objects and
    one response are allocated, and only the last [Headers] object is
    written to. *)
Lemma withCorsHeaders_supplied σ request r R H :
  responses σ !! r = Some R →
  headers_objs σ !! headers R = Some H →
  let h1 := fresh (dom (headers_objs σ)) in
  let h2 := fresh (dom (<[h1 := H]> (headers_objs σ))) in
  let r' := fresh (dom (responses σ)) in
  withCorsHeaders NEXT_PUBLIC_APP_URL request (Some r) σ =
    Some (r',
          mkHeap (<[h2 := cors_headers NEXT_PUBLIC_APP_URL request H]>
                    (<[h1 := H]> (headers_objs σ)))
                 (<[r' := mkNextResponse (body R) (status R) (statusText R) h2]>
                    (responses σ))).
Proof.
  intros HR HH h1 h2 r'. unfold withCorsHeaders.
  erewrite St_bind_eq; cycle 1.
  { erewrite St_bind_eq by (by apply read_response_eq).
    erewrite St_bind_eq by (by apply new_Headers_copy).
    apply new_NextResponse_copy. simpl. apply lookup_insert_eq. }
  simpl.
  rewrite (set_cors_headers _ request _
             (mkNextResponse (body R) (status R) (statusText R) h2) H); simpl.
  - fold h1. fold h2. fold r'. by rewrite insert_insert_eq.
  - apply lookup_insert_eq.
  - apply lookup_insert_eq.
Qed.

(** [withCorsHeaders] without a response: a 204 response with its own
    [Headers] object is allocated. *)
Lemma withCorsHeaders_synthesized σ request :
  let h := fresh (dom (headers_objs σ)) in
  let r' := fresh (dom (responses σ)) in
  withCorsHeaders NEXT_PUBLIC_APP_URL request None σ =
    Some (r',
          mkHeap (<[h := cors_headers NEXT_PUBLIC_APP_URL request ∅]> (headers_objs σ))
                 (<[r' := mkNextResponse None 204 "" h]> (responses σ))).
Proof.
  intros h r'. unfold withCorsHeaders.
  erewrite St_bind_eq by apply new_NextResponse_empty.
  rewrite (set_cors_headers _ request _ (mkNextResponse None 204 "" h) ∅); simpl.
  - fold h. fold r'. by rewrite insert_insert_eq.
  - apply lookup_insert_eq.
  - apply lookup_insert_eq.
Qed.

(** An origin of the allow-list is not the empty string. *)
Lemma allowed_origin_truthy o :
  o ∈ ALLOWED_ORIGINS NEXT_PUBLIC_APP_URL → truthy (Some o) = true.
Proof.
  unfold ALLOWED_ORIGINS, filter_Boolean. rewrite list_elem_of_omap.
  intros (v & _ & Hv). destruct (truthy v) eqn:Ht; [|done]. by subst v.
Qed.

(** The three fixed headers. *)
Lemma cors_headers_fixed request h :
  header_get (cors_headers NEXT_PUBLIC_APP_URL request h)
             "Access-Control-Allow-Methods"
    = Some "GET, POST, PUT, DELETE, PATCH, OPTIONS" ∧
  header_get (cors_headers NEXT_PUBLIC_APP_URL request h)
             "Access-Control-Allow-Headers"
    = Some "Content-Type, Authorization, X-Requested-With, Accept, Origin" ∧
  header_get (cors_headers NEXT_PUBLIC_APP_URL request h)
             "Access-Control-Max-Age"
    = Some "86400".
Proof.
  unfold cors_headers, header_get, header_set. cbn [lower ascii_lower].
  repeat split.
  - rewrite lookup_insert_ne by done. rewrite lookup_insert_ne by done.
    by rewrite lookup_insert_eq.
  - rewrite lookup_insert_ne by done. by rewrite lookup_insert_eq.
  - by rewrite lookup_insert_eq.
Qed.

Lemma cors_headers_origin_allowed request h o :
  header_get (req_headers request) "origin" = Some o →
  o ∈ ALLOWED_ORIGINS NEXT_PUBLIC_APP_URL →
  header_get (cors_headers NEXT_PUBLIC_APP_URL request h)
             "Access-Control-Allow-Origin" = Some o.
Proof.
  intros Ho Hin. unfold cors_headers. rewrite Ho.
  rewrite (allowed_origin_truthy _ Hin).
  unfold includes. rewrite bool_decide_eq_true_2 by done. simpl.
  unfold header_get, header_set. cbn [lower ascii_lower]. simpl.
  do 3 (rewrite lookup_insert_ne by done).
  by rewrite lookup_insert_eq.
Qed.

Lemma cors_headers_origin_other request h :
  header_get (req_headers request) "origin" = None ∨
  (∃ o, header_get (req_headers request) "origin" = Some o ∧
        o ∉ ALLOWED_ORIGINS NEXT_PUBLIC_APP_URL) →
  header_get (cors_headers NEXT_PUBLIC_APP_URL request h)
             "Access-Control-Allow-Origin" =
    header_get h "Access-Control-Allow-Origin".
Proof.
  intros Horigin. unfold cors_headers.
  assert ((negb (truthy (header_get (req_headers request) "origin"))
           || includes (ALLOWED_ORIGINS NEXT_PUBLIC_APP_URL)
                       (header_get (req_headers request) "origin"))
          && truthy (header_get (req_headers request) "origin") = false) as ->.
  { destruct Horigin as [-> | (o & -> & Hout)]; [done|].
    unfold includes. rewrite bool_decide_eq_false_2 by done.
    by destruct (truthy (Some o)). }
  unfold header_get, header_set. cbn [lower ascii_lower]. simpl.
  by do 3 (rewrite lookup_insert_ne by done).
Qed.

(** The headers that [withCorsHeaders] does not set are those supplied. *)
Lemma cors_headers_other_names request h name :
  lower name ∉ ["access-control-allow-origin"; "access-control-allow-methods";
                "access-control-allow-headers"; "access-control-max-age"] →
  header_get (cors_headers NEXT_PUBLIC_APP_URL request h) name = header_get h name.
Proof.
  intros Hname. unfold cors_headers, header_get, header_set.
  cbn [lower ascii_lower] in *. simpl in *.
  rewrite !not_elem_of_cons in Hname. destruct Hname as (? & ? & ? & ? & _).
  destruct (_ && _); by rewrite ?lookup_insert_ne by done.
Qed.

(** The preflight of the repository's tests: status 204, no body, the
    origin echoed. *)
Example cors_preflight_example :
  let request := mkNextRequest {["origin" := "http://localhost:3001"]} in
  ∃ r' σ' H',
    handleCorsPreFlight NEXT_PUBLIC_APP_URL request (mkHeap ∅ ∅) = Some (r', σ') ∧
    status <$> responses σ' !! r' = Some 204 ∧
    body <$> responses σ' !! r' = Some None ∧
    headers_at σ' r' = Some H' ∧
    header_get H' "Access-Control-Allow-Origin" = Some "http://localhost:3001".
Proof.
  intros request. unfold handleCorsPreFlight.
  eexists _, _, _. split.
  { erewrite St_bind_eq by apply new_NextResponse_empty.
    eapply withCorsHeaders_supplied; simpl.
    - apply lookup_insert_eq.
    - apply lookup_insert_eq. }
  unfold headers_at. simpl. rewrite !lookup_insert_eq. simpl.
  rewrite lookup_insert_eq.
  do 3 (split; [reflexivity|]).
  apply cors_headers_origin_allowed; [done|].
  unfold ALLOWED_ORIGINS, filter_Boolean. simpl. set_solver.
Qed.

(** C5 (as amended). The response [withCorsHeaders] returns carries the
    request's origin, exactly, as [Access-Control-Allow-Origin] when that
    origin is in the allow-list; when the request has no origin or one
    that is not in the allow-list, [withCorsHeaders] sets no such header:
    the returned response has it only if the supplied response had it,
    and with the same value; in every case the returned response carries
    the three fixed headers. [H] is the headers of the supplied
    response, empty when none is supplied. *)
Theorem cors_headers_of_returned_response σ request response H :
  supplied_headers σ response = Some H →
  ∃ r' σ' H',
    withCorsHeaders NEXT_PUBLIC_APP_URL request response σ = Some (r', σ') ∧
    headers_at σ' r' = Some H' ∧
    (∀ o, header_get (req_headers request) "origin" = Some o →
          o ∈ ALLOWED_ORIGINS NEXT_PUBLIC_APP_URL →
          header_get H' "Access-Control-Allow-Origin" = Some o) ∧
    (header_get (req_headers request) "origin" = None ∨
     (∃ o, header_get (req_headers request) "origin" = Some o ∧
           o ∉ ALLOWED_ORIGINS NEXT_PUBLIC_APP_URL) →
     header_get H' "Access-Control-Allow-Origin" =
       header_get H "Access-Control-Allow-Origin") ∧
    header_get H' "Access-Control-Allow-Methods"
      = Some "GET, POST, PUT, DELETE, PATCH, OPTIONS" ∧
    header_get H' "Access-Control-Allow-Headers"
      = Some "Content-Type, Authorization, X-Requested-With, Accept, Origin" ∧
    header_get H' "Access-Control-Max-Age" = Some "86400".
Proof.
  intros Hsupplied.
  assert (Hcontent : ∀ H', H' = cors_headers NEXT_PUBLIC_APP_URL request H →
    (∀ o, header_get (req_headers request) "origin" = Some o →
          o ∈ ALLOWED_ORIGINS NEXT_PUBLIC_APP_URL →
          header_get H' "Access-Control-Allow-Origin" = Some o) ∧
    (header_get (req_headers request) "origin" = None ∨
     (∃ o, header_get (req_headers request) "origin" = Some o ∧
           o ∉ ALLOWED_ORIGINS NEXT_PUBLIC_APP_URL) →
     header_get H' "Access-Control-Allow-Origin" =
       header_get H "Access-Control-Allow-Origin") ∧
    header_get H' "Access-Control-Allow-Methods"
      = Some "GET, POST, PUT, DELETE, PATCH, OPTIONS" ∧
    header_get H' "Access-Control-Allow-Headers"
      = Some "Content-Type, Authorization, X-Requested-With, Accept, Origin" ∧
    header_get H' "Access-Control-Max-Age" = Some "86400").
  { intros H' ->. split; [|split].
    - intros o. apply cors_headers_origin_allowed.
    - apply cors_headers_origin_other.
    - apply cors_headers_fixed. }
  destruct response as [r|]; simpl in Hsupplied.
  - unfold headers_at in Hsupplied.
    destruct (responses σ !! r) as [R|] eqn:HR; [|done]. simpl in Hsupplied.
    eexists _, _, _. split; [by apply (withCorsHeaders_supplied σ request r R H)|].
    split; [|by apply Hcontent].
    unfold headers_at. simpl. rewrite lookup_insert_eq. simpl.
    by rewrite lookup_insert_eq.
  - injection Hsupplied as <-.
    eexists _, _, _. split; [by apply withCorsHeaders_synthesized|].
    split; [|by apply Hcontent].
    unfold headers_at. simpl. rewrite lookup_insert_eq. simpl.
    by rewrite lookup_insert_eq.
Qed.

(** C7 (as amended). [withCorsHeaders] leaves the supplied response as
    it was: its fields and its headers are those of before the call, as
    is every object of the heap. When the body of the supplied response
    has not been read or locked, the response returned is a new object,
    with a new [Headers] object, the status, status text and body of the
    supplied response; the CORS headers are on that copy:
    [Access-Control-Allow-Methods], [Access-Control-Allow-Headers] and
    [Access-Control-Max-Age] with their fixed values, and
    [Access-Control-Allow-Origin] with the request's origin when it is in
    the allow-list; every other header of the copy is the supplied one.
    When the body has been read or locked, the call throws a [TypeError]
    and makes no response. *)
Theorem supplied_response_not_mutated σ used request r R H :
  responses σ !! r = Some R →
  headers_objs σ !! headers R = Some H →
  (body_usable used (body R) = false →
   ∃ e σ',
     call_withCorsHeaders NEXT_PUBLIC_APP_URL used request (Some r) σ =
       Some (Throws e, σ') ∧
     err_name e = "TypeError" ∧
     responses σ' = responses σ ∧
     headers_objs σ' !! headers R = Some H ∧
     preserved σ σ') ∧
  (body_usable used (body R) = true →
  ∃ r' σ' R' H',
    call_withCorsHeaders NEXT_PUBLIC_APP_URL used request (Some r) σ =
      Some (Returns r', σ') ∧
    withCorsHeaders NEXT_PUBLIC_APP_URL request (Some r) σ = Some (r', σ') ∧
    responses σ' !! r = Some R ∧
    headers_objs σ' !! headers R = Some H ∧
    preserved σ σ' ∧
    r' ≠ r ∧
    responses σ !! r' = None ∧
    responses σ' !! r' = Some R' ∧
    headers R' ≠ headers R ∧
    headers_objs σ !! headers R' = None ∧
    status R' = status R ∧
    statusText R' = statusText R ∧
    body R' = body R ∧
    headers_objs σ' !! headers R' = Some H' ∧
    H' = cors_headers NEXT_PUBLIC_APP_URL request H ∧
    header_get H' "Access-Control-Allow-Methods"
      = Some "GET, POST, PUT, DELETE, PATCH, OPTIONS" ∧
    header_get H' "Access-Control-Allow-Headers"
      = Some "Content-Type, Authorization, X-Requested-With, Accept, Origin" ∧
    header_get H' "Access-Control-Max-Age" = Some "86400" ∧
    (∀ o, header_get (req_headers request) "origin" = Some o →
          o ∈ ALLOWED_ORIGINS NEXT_PUBLIC_APP_URL →
          header_get H' "Access-Control-Allow-Origin" = Some o) ∧
    (header_get (req_headers request) "origin" = None ∨
     (∃ o, header_get (req_headers request) "origin" = Some o ∧
           o ∉ ALLOWED_ORIGINS NEXT_PUBLIC_APP_URL) →
     header_get H' "Access-Control-Allow-Origin" =
       header_get H "Access-Control-Allow-Origin") ∧
    (∀ name,
       lower name ∉ ["access-control-allow-origin"; "access-control-allow-methods";
                     "access-control-allow-headers"; "access-control-max-age"] →
       header_get H' name = header_get H name)).
Proof.
  intros HR HH.
  set (h1 := fresh (dom (headers_objs σ))).
  set (h2 := fresh (dom (<[h1 := H]> (headers_objs σ)))).
  set (r' := fresh (dom (responses σ))).
  assert (Hh1 : headers_objs σ !! h1 = None) by apply fresh_headers_None.
  assert (Hh2 : <[h1 := H]> (headers_objs σ) !! h2 = None)
    by apply not_elem_of_dom, is_fresh.
  assert (Hr' : responses σ !! r' = None) by apply fresh_response_None.
  assert (Hh2' : headers_objs σ !! h2 = None).
  { destruct (decide (h1 = h2)) as [E|E].
    - by rewrite <- E.
    - by rewrite lookup_insert_ne in Hh2. }
  assert (Hh12 : h1 ≠ h2).
  { intros E. rewrite <- E, lookup_insert_eq in Hh2. discriminate. }
  assert (Hold_h : ∀ l h, headers_objs σ !! l = Some h → h1 ≠ l ∧ h2 ≠ l).
  { intros l h Hl. split; intros <-; rewrite Hl in *; discriminate. }
  assert (Hold_r : ∀ l R0, responses σ !! l = Some R0 → r' ≠ l).
  { intros l R0 Hl <-. rewrite Hl in Hr'. discriminate. }
  assert (Hpres : ∀ l h, headers_objs σ !! l = Some h →
            <[h2 := cors_headers NEXT_PUBLIC_APP_URL request H]>
              (<[h1 := H]> (headers_objs σ)) !! l = Some h).
  { intros l h Hl. destruct (Hold_h l h Hl).
    by rewrite !lookup_insert_ne by done. }
  destruct (Hold_h _ _ HH) as [Hh1R Hh2R].
  pose proof (Hold_r _ _ HR) as Hr'r.
  split.
  { intros Hused. eexists _, _. split.
    { unfold call_withCorsHeaders.
      rewrite (St_bind_eq _ _ _ _ _ (read_response_eq _ _ _ HR)), Hused.
      rewrite (St_bind_eq _ _ _ _ _ (new_Headers_copy _ _ _ HH)).
      reflexivity. }
    simpl. split; [done|]. split; [done|].
    split; [by rewrite lookup_insert_ne by done|].
    split; simpl; [|done].
    intros l h Hl. destruct (Hold_h l h Hl).
    by rewrite lookup_insert_ne by done. }
  intros Husable.
  eexists r', _, (mkNextResponse (body R) (status R) (statusText R) h2),
          (cors_headers NEXT_PUBLIC_APP_URL request H).
  split.
  { unfold call_withCorsHeaders.
    rewrite (St_bind_eq _ _ _ _ _ (read_response_eq _ _ _ HR)), Husable.
    rewrite (St_bind_eq _ _ _ _ _ (withCorsHeaders_supplied _ _ _ _ _ HR HH)).
    reflexivity. }
  split; [by apply withCorsHeaders_supplied|]. simpl.
  split; [by rewrite lookup_insert_ne by done|].
  split; [by apply Hpres|].
  split.
  { split; simpl; [done|].
    intros l R0 Hl. by rewrite lookup_insert_ne by (by eapply Hold_r). }
  split; [done|].
  split; [done|].
  split; [by rewrite lookup_insert_eq|].
  split; [done|].
  split; [done|].
  do 3 (split; [reflexivity|]).
  split; [by rewrite lookup_insert_eq|].
  split; [reflexivity|].
  destruct (cors_headers_fixed request H) as (Hmethods & Hheaders & Hage).
  split; [exact Hmethods|]. split; [exact Hheaders|]. split; [exact Hage|].
  split; [intros o; apply cors_headers_origin_allowed|].
  split; [apply cors_headers_origin_other|].
  intros name. apply cors_headers_other_names.
Qed.

End Cors_props.

(** ** The CORS boundary on concrete heaps *)

Section Cors_cases.
Import Cors.

(** C5, as stated, fails for a supplied response that already carries
    the allowed-origin header: its copy keeps the header, whatever the
    request's origin. Here the request has no [Origin] header and the
    supplied response carries [Access-Control-Allow-Origin: *]. *)
Lemma preexisting_allow_origin_counterexample :
  let APP_URL := Some "https://short.example" in
  let request := mkNextRequest ∅ in
  let σ := mkHeap {[1%positive := {["access-control-allow-origin" := "*"]}]}
                  {[1%positive := mkNextResponse (Some 1%positive) 200 "OK" 1%positive]} in
  header_get (req_headers request) "origin" = None ∧
  ∃ r' σ' H',
    withCorsHeaders APP_URL request (Some 1%positive) σ = Some (r', σ') ∧
    headers_at σ' r' = Some H' ∧
    header_get H' "Access-Control-Allow-Origin" = Some "*" ∧
    header_get H' "Access-Control-Allow-Origin" ≠ None.
Proof.
  intros APP_URL request σ. split; [done|].
  eexists _, _, _. split; [|split].
  - by apply (withCorsHeaders_supplied APP_URL σ request 1%positive
                (mkNextResponse (Some 1%positive) 200 "OK" 1%positive)
                {["access-control-allow-origin" := "*"]}).
  - unfold headers_at. simpl. rewrite lookup_insert_eq. simpl.
    by rewrite lookup_insert_eq.
  - rewrite cors_headers_origin_other by (by left).
    split; [done|discriminate].
Qed.

Lemma cors_headers_of_returned_response_witness :
  let APP_URL := Some "https://short.example" in
  let request := mkNextRequest {["origin" := "http://localhost:3000"]} in
  let H : HeaderMap := {["content-type" := "application/json"]} in
  let σ := mkHeap {[1%positive := H]}
                  {[1%positive := mkNextResponse (Some 1%positive) 200 "OK" 1%positive]} in
  ∃ r' σ' H',
    withCorsHeaders APP_URL request (Some 1%positive) σ = Some (r', σ') ∧
    headers_at σ' r' = Some H' ∧
    (∀ o, header_get (req_headers request) "origin" = Some o →
          o ∈ ALLOWED_ORIGINS APP_URL →
          header_get H' "Access-Control-Allow-Origin" = Some o) ∧
    (header_get (req_headers request) "origin" = None ∨
     (∃ o, header_get (req_headers request) "origin" = Some o ∧
           o ∉ ALLOWED_ORIGINS APP_URL) →
     header_get H' "Access-Control-Allow-Origin" =
       header_get H "Access-Control-Allow-Origin") ∧
    header_get H' "Access-Control-Allow-Methods"
      = Some "GET, POST, PUT, DELETE, PATCH, OPTIONS" ∧
    header_get H' "Access-Control-Allow-Headers"
      = Some "Content-Type, Authorization, X-Requested-With, Accept, Origin" ∧
    header_get H' "Access-Control-Max-Age" = Some "86400".
Proof.
  intros APP_URL request H σ.
  apply (cors_headers_of_returned_response APP_URL σ request (Some 1%positive) H).
  reflexivity.
Defined.

Lemma supplied_response_not_mutated_witness :
  let APP_URL := Some "https://short.example" in
  let request := mkNextRequest {["origin" := "http://localhost:3000"]} in
  let H : HeaderMap := {["content-type" := "application/json"]} in
  let R := mkNextResponse (Some 1%positive) 201 "Created" 1%positive in
  let σ := mkHeap {[1%positive := H]} {[1%positive := R]} in
  let used : gset StreamRef := {[7%positive]} in
  ∃ r' σ' R' H',
    call_withCorsHeaders APP_URL used request (Some 1%positive) σ =
      Some (Returns r', σ') ∧
    withCorsHeaders APP_URL request (Some 1%positive) σ = Some (r', σ') ∧
    responses σ' !! 1%positive = Some R ∧
    headers_objs σ' !! headers R = Some H ∧
    preserved σ σ' ∧
    r' ≠ 1%positive ∧
    responses σ !! r' = None ∧
    responses σ' !! r' = Some R' ∧
    headers R' ≠ headers R ∧
    headers_objs σ !! headers R' = None ∧
    status R' = status R ∧
    statusText R' = statusText R ∧
    body R' = body R ∧
    headers_objs σ' !! headers R' = Some H' ∧
    H' = cors_headers APP_URL request H ∧
    header_get H' "Access-Control-Allow-Methods"
      = Some "GET, POST, PUT, DELETE, PATCH, OPTIONS" ∧
    header_get H' "Access-Control-Allow-Headers"
      = Some "Content-Type, Authorization, X-Requested-With, Accept, Origin" ∧
    header_get H' "Access-Control-Max-Age" = Some "86400" ∧
    (∀ o, header_get (req_headers request) "origin" = Some o →
          o ∈ ALLOWED_ORIGINS APP_URL →
          header_get H' "Access-Control-Allow-Origin" = Some o) ∧
    (header_get (req_headers request) "origin" = None ∨
     (∃ o, header_get (req_headers request) "origin" = Some o ∧
           o ∉ ALLOWED_ORIGINS APP_URL) →
     header_get H' "Access-Control-Allow-Origin" =
       header_get H "Access-Control-Allow-Origin") ∧
    (∀ name,
       lower name ∉ ["access-control-allow-origin"; "access-control-allow-methods";
                     "access-control-allow-headers"; "access-control-max-age"] →
       header_get H' name = header_get H name).
Proof.
  intros APP_URL request H R σ used.
  apply (proj2 (supplied_response_not_mutated APP_URL σ used request
                  1%positive R H eq_refl eq_refl)).
  reflexivity.
Defined.

(** A response whose body has been read: the call throws, and the heap
    has no response that it had not. *)
Lemma read_body_counterexample :
  let APP_URL := Some "https://short.example" in
  let request := mkNextRequest {["origin" := "http://localhost:3000"]} in
  let H : HeaderMap := {["content-type" := "application/json"]} in
  let R := mkNextResponse (Some 1%positive) 201 "Created" 1%positive in
  let σ := mkHeap {[1%positive := H]} {[1%positive := R]} in
  let used : gset StreamRef := {[1%positive]} in
  ∃ e σ',
    call_withCorsHeaders APP_URL used request (Some 1%positive) σ =
      Some (Throws e, σ') ∧
    err_name e = "TypeError" ∧
    responses σ' = responses σ.
Proof.
  intros APP_URL request H R σ used.
  eexists _, _. split; [|split].
  - unfold call_withCorsHeaders.
    rewrite (St_bind_eq _ _ _ _ _ (read_response_eq σ 1%positive R eq_refl)).
    change (body_usable used (body R)) with false. cbv iota.
    change (headers R) with 1%positive.
    rewrite (St_bind_eq _ _ _ _ _ (new_Headers_copy σ 1%positive H eq_refl)).
    reflexivity.
  - reflexivity.
  - reflexivity.
Qed.

End Cors_cases.

(** * Further properties of the three files *)

(** ** The in-memory limiter over time *)

Section InMemoryRateLimiter_more.
Import InMemoryRateLimiter.

Implicit Types (this : t) (identifier : string) (now : Z).

(** Calls for an identifier whose count has reached the maximum, while
    its window lasts: all denied, nothing changes. *)
Lemma run_when_full identifier c R ts :
  ∀ this,
    store this !! identifier = Some (mkEntry c R) →
    Forall (λ now, now <= R) ts →
    c >= maxRequests this →
    run this ((λ now, (now, identifier)) <$> ts) =
      (replicate (length ts) (identifier, denied R), this).
Proof.
  induction ts as [|now ts IH]; intros this Hc Hts Hfull; [done|].
  apply Forall_cons in Hts as [Hnow Hts].
  rewrite fmap_cons, run_cons.
  rewrite (limit_denied _ _ _ _ Hc) by (simpl; lia). cbn [fst snd].
  by rewrite (IH this Hc Hts Hfull).
Qed.

(** X1. One window, any number of calls: starting with no entry, when the
    first call is made at [t0] and the others no later than
    [t0 + windowSeconds * 1000], the first [m = min (calls, max 1 N)] calls
    are admitted with [remaining = N - k] and every later call is denied
    with [remaining = 0] and the same [resetTime]. *)
Theorem one_window_admits_at_most_max this identifier t0 ts :
  store this !! identifier = None →
  Forall (λ now, now <= t0 + windowSeconds this * 1000) ts →
  let N := maxRequests this in
  let m := Z.min (Z.max 1 N) (Z.of_nat (S (length ts))) in
  (run this ((t0, identifier) :: ((λ now, (now, identifier)) <$> ts))).1 =
    ((λ k, (identifier, admitted (N - k))) <$> seqZ 1 m)
    ++ replicate (S (length ts) - Z.to_nat m)
                 (identifier, denied (t0 + windowSeconds this * 1000)).
Proof.
  intros Hnone Hts N m.
  assert (Hm : m = Z.min (Z.max 1 N) (Z.of_nat (S (length ts)))) by done.
  assert (HN : N = maxRequests this) by done.
  clearbody m N.
  set (R := t0 + windowSeconds this * 1000) in *.
  rewrite run_cons, (limit_new _ _ _ Hnone). fold R. cbn [fst snd].
  set (this1 := with_entry this identifier (mkEntry 1 R)).
  assert (H1 : store this1 !! identifier = Some (mkEntry 1 R))
    by (unfold this1; simpl; apply lookup_insert_eq).
  rewrite (seqZ_cons 1 m) by lia. rewrite fmap_cons. rewrite <- HN.
  rewrite <- app_comm_cons. f_equal.
  remember (Z.to_nat (Z.pred m)) as n1 eqn:Hn1.
  (* the calls 2..m are counted, the others find the count at the maximum *)
  assert (Hcounted : run this1 ((λ now, (now, identifier)) <$> take n1 ts) =
            ((λ k, (identifier, admitted (N - k))) <$> seqZ (1 + 1) (Z.pred m),
             with_entry this identifier (mkEntry (1 + Z.pred m) R))).
  { assert (Hlen1 : length (take n1 ts) = n1) by (rewrite length_take; lia).
    destruct (decide (n1 = 0%nat)) as [Hz|Hnz].
    - rewrite Hz, take_0. replace (Z.pred m) with 0 by lia. simpl.
      unfold this1. done.
    - rewrite (run_within_window identifier R (take n1 ts) this1 1 H1);
        [| by apply Forall_take | rewrite Hlen1; unfold this1; simpl; lia].
      rewrite Hlen1. unfold this1 at 2. rewrite with_entry_twice.
      replace (Z.of_nat n1) with (Z.pred m) by lia.
      unfold this1; simpl. by rewrite HN. }
  rewrite <- (take_drop n1 ts) at 1.
  rewrite fmap_app, run_app, Hcounted. cbn [fst snd].
  replace (Z.succ 1) with (1 + 1) by lia.
  f_equal.
  destruct (decide (length ts <= n1)%nat) as [Hshort|Hlong].
  - rewrite drop_ge by lia. simpl.
    by replace (S (length ts) - Z.to_nat m)%nat with 0%nat by lia.
  - assert (Hfull : 1 + Z.pred m >= maxRequests this) by lia.
    rewrite (run_when_full identifier (1 + Z.pred m) R);
      [| simpl; apply lookup_insert_eq | by apply Forall_drop | done].
    cbn [fst]. rewrite length_drop. f_equal. lia.
Qed.

Lemma one_window_admits_at_most_max_witness :
  (run (new (Some 2) (Some 60))
       [(1000, "A"); (1001, "A"); (1002, "A"); (61000, "A")]).1 =
    [("A", admitted 1); ("A", admitted 0);
     ("A", denied 61000); ("A", denied 61000)].
Proof.
  apply (one_window_admits_at_most_max (new (Some 2) (Some 60)) "A" 1000
           [1001; 1002; 61000]).
  - reflexivity.
  - repeat constructor; simpl; lia.
Defined.

(** X2. The window is fixed, not sliding: with [N = maxRequests >= 1],
    [N] calls inside one window followed by [N] calls that start right
    after its [resetTime] are all admitted, [2 * N] in a row, however close
    the two groups are in time. *)
Theorem fixed_window_double_burst this identifier t0 ts1 t1 ts2 :
  let N := maxRequests this in
  let windowMs := windowSeconds this * 1000 in
  1 <= N →
  store this !! identifier = None →
  length ts1 = Z.to_nat (N - 1) →
  Forall (λ now, now <= t0 + windowMs) ts1 →
  t1 > t0 + windowMs →
  length ts2 = Z.to_nat (N - 1) →
  Forall (λ now, now <= t1 + windowMs) ts2 →
  (run this (((t0, identifier) :: ((λ now, (now, identifier)) <$> ts1))
             ++ (t1, identifier) :: ((λ now, (now, identifier)) <$> ts2))).1 =
    ((λ k, (identifier, admitted (N - k))) <$> seqZ 1 N)
    ++ ((λ k, (identifier, admitted (N - k))) <$> seqZ 1 N).
Proof.
  intros N windowMs HN Hnone Hlen1 Hts1 Ht1 Hlen2 Hts2.
  assert (HNeq : N = maxRequests this) by done.
  assert (HW : windowMs = windowSeconds this * 1000) by done.
  clearbody N windowMs.
  rewrite run_app.
  (* the first window *)
  rewrite !run_cons, (limit_new _ _ _ Hnone). cbn [fst snd]. rewrite <- HW.
  rewrite (run_within_window identifier (t0 + windowMs) ts1 _ 1);
    [| simpl; apply lookup_insert_eq | done | simpl; lia].
  cbn [fst snd]. rewrite with_entry_twice.
  (* the first call after it *)
  set (e1 := mkEntry (1 + Z.of_nat (length ts1)) (t0 + windowMs)).
  rewrite (limit_expired (with_entry this identifier e1) t1 identifier e1);
    [| simpl; apply lookup_insert_eq | simpl; lia].
  cbn [fst snd]. rewrite with_entry_twice. simpl windowSeconds. rewrite <- HW.
  rewrite (run_within_window identifier (t1 + windowMs) ts2 _ 1);
    [| simpl; apply lookup_insert_eq | done | simpl; lia].
  cbn [fst snd]. simpl maxRequests. rewrite <- HNeq.
  rewrite (seqZ_cons 1 N) by lia. rewrite fmap_cons.
  replace (Z.succ 1) with (1 + 1) by lia.
  replace (Z.pred N) with (Z.of_nat (length ts1)) by lia.
  rewrite Hlen2, <- Hlen1. done.
Qed.

Lemma fixed_window_double_burst_witness :
  (run (new (Some 2) (Some 60))
       ([(0, "A"); (60000, "A")] ++ [(60001, "A"); (60002, "A")])).1 =
    [("A", admitted 1); ("A", admitted 0)]
    ++ [("A", admitted 1); ("A", admitted 0)].
Proof.
  apply (fixed_window_double_burst (new (Some 2) (Some 60)) "A" 0
           [60000] 60001 [60002]).
  - simpl. lia.
  - reflexivity.
  - reflexivity.
  - repeat constructor; simpl; lia.
  - simpl. lia.
  - reflexivity.
  - repeat constructor; simpl; lia.
Defined.

Lemma run_events_cons_limit this now identifier rest :
  run_events this (Limit now identifier :: rest) =
    ((identifier, (limit this now identifier).1)
       :: (run_events (limit this now identifier).2 rest).1,
     (run_events (limit this now identifier).2 rest).2).
Proof.
  cbn [run_events]. destruct (limit this now identifier) as [r this1].
  cbn [fst snd]. by destruct (run_events this1 rest).
Qed.

Lemma limit_counts_in_range this now identifier :
  counts_in_range this → counts_in_range (limit this now identifier).2.
Proof.
  intros Hinv id e. unfold limit.
  destruct (store this !! identifier) as [e0|] eqn:He0; simpl.
  - pose proof (Hinv _ _ He0) as Hr0.
    repeat case_bool_decide; simpl.
    + destruct (decide (identifier = id)) as [->|Hne].
      * rewrite lookup_insert_eq. intros [= <-]; simpl. lia.
      * rewrite lookup_insert_ne by done. apply Hinv.
    + apply Hinv.
    + destruct (decide (identifier = id)) as [->|Hne].
      * rewrite lookup_insert_eq. intros [= <-]; simpl. lia.
      * rewrite lookup_insert_ne by done. apply Hinv.
  - destruct (decide (identifier = id)) as [->|Hne].
    + rewrite lookup_insert_eq. intros [= <-]; simpl. lia.
    + rewrite lookup_insert_ne by done. apply Hinv.
Qed.

Lemma cleanup_counts_in_range this now :
  counts_in_range this → counts_in_range (cleanup this now).
Proof.
  intros Hinv id e He. apply cleanup_lookup in He as [He _].
  by apply (Hinv id).
Qed.

Lemma run_events_counts_in_range events :
  ∀ this, counts_in_range this → counts_in_range (run_events this events).2.
Proof.
  induction events as [|[now identifier|now] events IH]; intros this Hinv.
  - done.
  - rewrite run_events_cons_limit. cbn [snd].
    by apply IH, limit_counts_in_range.
  - cbn [run_events]. by apply IH, cleanup_counts_in_range.
Qed.

(** X3. Whatever calls and timer ticks an object created by the
    constructor goes through, every stored entry has a count between 1 and
    [max 1 maxRequests]. *)
Theorem stored_counts_stay_in_range maxRequests windowSeconds events :
  counts_in_range (run_events (new maxRequests windowSeconds) events).2.
Proof.
  apply run_events_counts_in_range.
  intros id e. unfold new; simpl. by rewrite lookup_empty.
Qed.

(** What [limit] returns on an object whose counts are in range. *)
Lemma limit_result_in_range this now identifier :
  1 <= maxRequests this →
  counts_in_range this →
  let r := (limit this now identifier).1 in
  0 <= remaining r <= maxRequests this - 1 ∧
  (success r = true → res_resetTime r = None) ∧
  (success r = false → remaining r = 0 ∧ is_Some (res_resetTime r)).
Proof.
  intros HN Hinv. unfold limit.
  destruct (store this !! identifier) as [e0|] eqn:He0; simpl.
  - pose proof (Hinv _ _ He0) as Hr0.
    repeat case_bool_decide; simpl; (split; [lia|]); split; done.
  - split; [lia|]. by split.
Qed.

(** X4. With [maxRequests >= 1], every result an object created by the
    constructor ever returns has [0 <= remaining <= maxRequests - 1]; an
    admission carries no [resetTime]; a denial has [remaining = 0] and
    carries a [resetTime]. *)
Theorem results_stay_in_range N windowSeconds events identifier r :
  1 <= N →
  (identifier, r) ∈ (run_events (new (Some N) windowSeconds) events).1 →
  0 <= remaining r <= N - 1 ∧
  (success r = true → res_resetTime r = None) ∧
  (success r = false → remaining r = 0 ∧ is_Some (res_resetTime r)).
Proof.
  intros HN.
  assert (Hgen : ∀ this,
            maxRequests this = N → counts_in_range this →
            (identifier, r) ∈ (run_events this events).1 →
            0 <= remaining r <= N - 1 ∧
            (success r = true → res_resetTime r = None) ∧
            (success r = false → remaining r = 0 ∧ is_Some (res_resetTime r))).
  { induction events as [|[now id|now] events IH]; intros this Hmax Hinv.
    - simpl. by intros ?%elem_of_nil.
    - rewrite run_events_cons_limit. cbn [fst].
      intros [[= -> ->] | Hin]%elem_of_cons.
      + rewrite <- Hmax. apply limit_result_in_range; [lia|done].
      + apply (IH (limit this now id).2); [|by apply limit_counts_in_range|done].
        by destruct (limit_settings this now id) as [-> _].
    - cbn [run_events]. apply IH; [done|by apply cleanup_counts_in_range]. }
  apply Hgen; [done|].
  intros id e. unfold new; simpl. by rewrite lookup_empty.
Qed.

Lemma results_stay_in_range_witness :
  0 <= remaining (mkResult false 0 (Some 61000)) <= 2 - 1 ∧
  (success (mkResult false 0 (Some 61000)) = true →
     res_resetTime (mkResult false 0 (Some 61000)) = None) ∧
  (success (mkResult false 0 (Some 61000)) = false →
     remaining (mkResult false 0 (Some 61000)) = 0 ∧
     is_Some (res_resetTime (mkResult false 0 (Some 61000)))).
Proof.
  apply (results_stay_in_range 2 (Some 60)
           [Limit 1000 "A"; Limit 1001 "A"; Cleanup 1500; Limit 1002 "A"]
           "A" (mkResult false 0 (Some 61000))).
  - lia.
  - vm_compute. apply list_elem_of_In. simpl. auto.
Defined.

(** X5. A denial tells when to retry: the [resetTime] it returns is not
    before the call, the object is as it was, and a call for the same
    identifier at any time after that [resetTime] is admitted with
    [remaining = maxRequests - 1]. *)
Theorem retry_after_reset_time_is_admitted this now identifier r this' :
  limit this now identifier = (r, this') →
  success r = false →
  ∃ reset,
    res_resetTime r = Some reset ∧
    now <= reset ∧
    ∀ later, later > reset →
      (limit this' later identifier).1 = admitted (maxRequests this - 1).
Proof.
  unfold limit at 1.
  destruct (store this !! identifier) as [e|] eqn:He.
  - repeat case_bool_decide; intros [= <- <-]; simpl; try discriminate.
    intros _. exists (resetTime e). split; [done|]. split; [lia|].
    intros later Hlater. by rewrite (limit_expired _ _ _ _ He).
  - intros [= <- <-]; simpl. discriminate.
Qed.

Lemma retry_after_reset_time_is_admitted_witness :
  let this := mk {["a" := mkEntry 2 1000]} 2 60 in
  ∃ reset,
    res_resetTime (mkResult false 0 (Some 1000)) = Some reset ∧
    500 <= reset ∧
    ∀ later, later > reset →
      (limit this later "a").1 = admitted (maxRequests this - 1).
Proof.
  intros this.
  apply (retry_after_reset_time_is_admitted this 500 "a"
           (mkResult false 0 (Some 1000)) this).
  - vm_compute. reflexivity.
  - reflexivity.
Defined.

Lemma swept_of_limit t swept full now identifier :
  swept_of t swept full →
  t <= now →
  (limit swept now identifier).1 = (limit full now identifier).1 ∧
  swept_of now (limit swept now identifier).2 (limit full now identifier).2.
Proof.
  intros (Hmax & Hwin & Hentries) Hnow.
  destruct (Hentries identifier) as [Hsame | (Hnone & e & He & Hover)].
  - destruct (limit_agree swept full now identifier) as [Hr (He' & Hmax' & Hwin')];
      [by repeat split|].
    split; [done|]. split; [done|]. split; [done|].
    intros id. destruct (decide (identifier = id)) as [<-|Hne]; [by left|].
    rewrite !limit_other_entry by done.
    destruct (Hentries id) as [? | (? & e & ? & ?)]; [by left|].
    right. split; [done|]. exists e. split; [done|lia].
  - rewrite (limit_new swept now identifier Hnone).
    rewrite (limit_expired full now identifier e He) by lia.
    cbn [fst snd]. rewrite Hmax, Hwin. split; [done|].
    split; [done|]. split; [done|].
    intros id. simpl. destruct (decide (identifier = id)) as [<-|Hne].
    + left. by rewrite !lookup_insert_eq.
    + rewrite !lookup_insert_ne by done.
      destruct (Hentries id) as [? | (? & e' & ? & ?)]; [by left|].
      right. split; [done|]. exists e'. split; [done|lia].
Qed.

Lemma swept_of_cleanup t swept full now :
  swept_of t swept full →
  t <= now →
  swept_of now (cleanup swept now) full.
Proof.
  intros (Hmax & Hwin & Hentries) Hnow.
  split; [done|]. split; [done|].
  intros id.
  destruct (store (cleanup swept now) !! id) as [e|] eqn:Hc.
  - apply cleanup_lookup in Hc as [Hc _].
    destruct (Hentries id) as [<- | (Hnone & _)]; [by left|].
    rewrite Hnone in Hc. discriminate.
  - destruct (Hentries id) as [Hsame | (_ & e & He & Hover)].
    + destruct (store full !! id) as [e|] eqn:He; [|by left].
      right. split; [done|]. exists e. split; [done|].
      destruct (decide (now <= resetTime e)) as [Hlive|]; [|lia].
      assert (store (cleanup swept now) !! id = Some e) as Hin
        by (apply cleanup_lookup; by rewrite Hsame).
      rewrite Hin in Hc. discriminate.
    + right. split; [done|]. exists e. split; [done|lia].
Qed.

Lemma run_events_swept events :
  ∀ t swept full,
    swept_of t swept full →
    Forall (λ ev, t <= event_time ev) events →
    StronglySorted Z.le (event_time <$> events) →
    (run_events swept events).1 = (run full (calls_of events)).1.
Proof.
  induction events as [|ev events IH]; intros t swept full Hrel Hlater Hsorted.
  - done.
  - apply Forall_cons in Hlater as [Hev Hlater].
    rewrite fmap_cons in Hsorted.
    apply StronglySorted_inv in Hsorted as [Hsorted Hrest].
    rewrite Forall_fmap in Hrest.
    destruct ev as [now identifier|now]; simpl in Hev.
    + rewrite run_events_cons_limit. cbn [calls_of]. rewrite run_cons.
      cbn [fst].
      destruct (swept_of_limit t swept full now identifier Hrel Hev) as [-> Hrel'].
      f_equal. by apply (IH now).
    + cbn [run_events calls_of].
      apply (IH now); [by eapply swept_of_cleanup|done|done].
Qed.

(** X6. The sweep cannot be observed through [limit]: when the clock does
    not go back between events, the calls return the same results with the
    timer ticks as without them. *)
Theorem cleanup_is_unobservable this events :
  Sorted Z.le (event_time <$> events) →
  (run_events this events).1 = (run this (calls_of events)).1.
Proof.
  intros Hsorted.
  apply Sorted_StronglySorted in Hsorted; [|intros x y z; apply Z.le_trans].
  destruct events as [|ev events]; [done|].
  apply (run_events_swept _ (event_time ev) this this).
  - split; [done|]. split; [done|]. by left.
  - rewrite fmap_cons in Hsorted.
    apply StronglySorted_inv in Hsorted as [_ Hrest].
    rewrite Forall_fmap in Hrest. by apply Forall_cons.
  - done.
Qed.

Lemma cleanup_is_unobservable_witness :
  let this := new (Some 1) (Some 60) in
  let events := [Limit 0 "A"; Cleanup 30000; Limit 60000 "A";
                 Cleanup 60001; Limit 60001 "A"] in
  (run_events this events).1 = (run this (calls_of events)).1.
Proof.
  intros this events.
  apply (cleanup_is_unobservable this events).
  repeat constructor; simpl; lia.
Defined.

(** The hypothesis on the clock is needed: a call stamped before an
    earlier sweep finds its full window gone. *)
Example cleanup_observed_when_clock_goes_back :
  let this := new (Some 1) (Some 0) in
  let events := [Limit 50 "A"; Cleanup 100; Limit 40 "A"] in
  (run_events this events).1 = [("A", admitted 0); ("A", admitted 0)] ∧
  (run this (calls_of events)).1 = [("A", admitted 0); ("A", denied 50)].
Proof. split; vm_compute; reflexivity. Qed.

(** X7. A sweep at [now] keeps exactly the entries with
    [now <= resetTime], unchanged, and the settings; a later sweep
    subsumes an earlier one. *)
Theorem cleanup_drops_exactly_the_expired this now :
  (∀ identifier entry,
     store (cleanup this now) !! identifier = Some entry ↔
     store this !! identifier = Some entry ∧ now <= resetTime entry) ∧
  maxRequests (cleanup this now) = maxRequests this ∧
  windowSeconds (cleanup this now) = windowSeconds this ∧
  (∀ earlier, earlier <= now →
     cleanup (cleanup this earlier) now = cleanup this now).
Proof.
  split; [apply cleanup_lookup|]. split; [done|]. split; [done|].
  intros earlier Hearlier. unfold cleanup; simpl. f_equal.
  apply map_eq. intros id. apply option_eq. intros e.
  rewrite !map_lookup_filter_Some; simpl.
  split.
  - by intros [[? _] ?].
  - intros [? ?]. repeat split; [done|lia|done].
Qed.

End InMemoryRateLimiter_more.

(** ** The two limiters side by side *)

Section Strategies.
Import InMemoryRateLimiter.

(** Calls for one identifier in one window, seen from the local object
    after [k] of them, against a remote counter that has counted the same
    [k]. *)
Lemma run_like_counted (remote : UpstashRateLimiter.t) identifier R ts :
  ∀ (this : t) k,
    1 <= k →
    1 <= maxRequests this →
    UpstashRateLimiter.maxRequests remote = maxRequests this →
    store this !! identifier = Some (mkEntry (Z.min k (maxRequests this)) R) →
    Forall (λ now, now <= R) ts →
    (λ ir, verdict ir.2) <$> (run this ((λ now, (now, identifier)) <$> ts)).1 =
      (λ j, verdict (UpstashRateLimiter.counted remote j))
        <$> seqZ (k + 1) (Z.of_nat (length ts)).
Proof.
  induction ts as [|now ts IH]; intros this k Hk HN Hmax He Hts; [done|].
  apply Forall_cons in Hts as [Hnow Hts].
  rewrite fmap_cons, run_cons. cbn [fst snd length].
  rewrite (seqZ_cons (k + 1)) by lia. rewrite !fmap_cons.
  replace (Z.pred (Z.of_nat (S (length ts)))) with (Z.of_nat (length ts)) by lia.
  replace (Z.succ (k + 1)) with ((k + 1) + 1) by lia.
  unfold UpstashRateLimiter.counted at 1. rewrite Hmax.
  destruct (decide (k < maxRequests this)) as [Hroom|Hfull].
  - rewrite (limit_counted _ _ _ _ He) by (simpl; lia). cbn [fst snd].
    simpl count; simpl resetTime.
    rewrite bool_decide_eq_false_2 by lia.
    f_equal.
    + unfold verdict; simpl. f_equal. lia.
    + rewrite <- (IH (with_entry this identifier
                        (mkEntry (Z.min k (maxRequests this) + 1) R)) (k + 1));
        try done; try lia.
      simpl. rewrite lookup_insert_eq. do 2 f_equal. lia.
  - rewrite (limit_denied _ _ _ _ He) by (simpl; lia). cbn [fst snd].
    rewrite bool_decide_eq_true_2 by lia.
    f_equal.
    rewrite <- (IH this (k + 1)); try done; try lia.
    rewrite He. do 2 f_equal. lia.
Qed.

Lemma local_verdicts_like_counted
    (this : t) (remote : UpstashRateLimiter.t) identifier t0 ts :
  1 <= maxRequests this →
  UpstashRateLimiter.maxRequests remote = maxRequests this →
  store this !! identifier = None →
  Forall (λ now, now <= t0 + windowSeconds this * 1000) ts →
  (λ ir, verdict ir.2)
    <$> (run this ((t0, identifier) :: ((λ now, (now, identifier)) <$> ts))).1 =
  (λ k, verdict (UpstashRateLimiter.counted remote k))
    <$> seqZ 1 (Z.of_nat (S (length ts))).
Proof.
  intros HN Hmax Hnone Hts.
  rewrite run_cons, (limit_new _ _ _ Hnone). cbn [fst snd].
  rewrite (seqZ_cons 1) by lia. rewrite !fmap_cons.
  f_equal.
  - unfold UpstashRateLimiter.counted. rewrite Hmax.
    by rewrite bool_decide_eq_false_2 by lia.
  - replace (Z.pred (Z.of_nat (S (length ts)))) with (Z.of_nat (length ts)) by lia.
    replace (Z.succ 1) with (1 + 1) by lia.
    apply (run_like_counted remote identifier
             (t0 + windowSeconds this * 1000)); try done; try lia.
    simpl. rewrite lookup_insert_eq. do 2 f_equal. lia.
Qed.

(** X8. The two strategies give the same verdicts: with the same
    [maxRequests >= 1], the local limiter answers call [k] of a window
    ([k] = 1, 2, ...) with the [success] and [remaining] that the remote
    limiter returns when the store answers its increment with the count
    [k]. *)
Theorem strategies_give_the_same_verdicts
    (this : t) (remote : UpstashRateLimiter.t)
    (store_answers : Z → UpstashRateLimiter.Fetch) identifier t0 ts :
  1 <= maxRequests this →
  UpstashRateLimiter.maxRequests remote = maxRequests this →
  (∀ k, UpstashRateLimiter.incr_count (store_answers k) remote identifier = Some k) →
  store this !! identifier = None →
  Forall (λ now, now <= t0 + windowSeconds this * 1000) ts →
  (λ ir, Returns (verdict ir.2))
    <$> (run this ((t0, identifier) :: ((λ now, (now, identifier)) <$> ts))).1 =
  (λ k, match (UpstashRateLimiter.limit (store_answers k) remote identifier).1 with
        | Returns r => Returns (verdict r)
        | Throws e => Throws e
        end)
    <$> seqZ 1 (Z.of_nat (S (length ts))).
Proof.
  intros HN Hmax Hstore Hnone Hts.
  pose proof (local_verdicts_like_counted this remote identifier t0 ts
                HN Hmax Hnone Hts) as Hlocal.
  apply (f_equal (fmap (λ v : bool * Z, Returns v))) in Hlocal.
  rewrite <- !list_fmap_compose in Hlocal.
  etrans; [exact Hlocal|].
  apply list_fmap_ext. intros _ k _. simpl.
  by rewrite (limit_incr_count _ _ _ _ (Hstore k)).
Qed.

Lemma strategies_give_the_same_verdicts_witness :
  let this := new (Some 2) (Some 60) in
  let remote := UpstashRateLimiter.mk "https://redis.example" "secret" 2 60 in
  let store_answers : Z → UpstashRateLimiter.Fetch := λ k _,
    Returns (UpstashRateLimiter.mkResponse true "OK"
               (Returns (UpstashRateLimiter.mkReply k))) in
  (λ ir, Returns (verdict ir.2))
    <$> (run this ((0, "A") :: ((λ now, (now, "A")) <$> [1; 2; 3]))).1 =
  (λ k, match (UpstashRateLimiter.limit (store_answers k) remote "A").1 with
        | Returns r => Returns (verdict r)
        | Throws e => Throws e
        end)
    <$> seqZ 1 (Z.of_nat (S (length [1; 2; 3]))).
Proof.
  intros this remote store_answers.
  apply (strategies_give_the_same_verdicts this remote store_answers "A" 0 [1; 2; 3]).
  - simpl. lia.
  - reflexivity.
  - intros k. reflexivity.
  - reflexivity.
  - repeat constructor; simpl; lia.
Defined.

(** With [maxRequests = 0] they differ: the local limiter admits the
    first call of a window, the remote one denies it. *)
Example strategies_differ_at_zero :
  verdict (limit (new (Some 0) (Some 60)) 0 "A").1 = (true, -1) ∧
  verdict (UpstashRateLimiter.counted
             (UpstashRateLimiter.mk "https://redis.example" "secret" 0 60) 1)
    = (false, 0).
Proof. split; reflexivity. Qed.

End Strategies.

(** ** The Upstash limiter: results and keys *)

Section UpstashRateLimiter_more.
Import UpstashRateLimiter.

Implicit Types (fetch : Fetch) (this : t) (identifier : string).

(** X9. For every way the promises of the two [fetch] calls settle in
    which a body that parses has an integer [result], the shape the cast
    of line 101 states: [limit] of the remote limiter returns a result
    without [resetTime], with [remaining >= 0] when [maxRequests >= 0]
    and [remaining = 0] on a denial, and it writes at most one line to
    the console: none when it answers from a count. *)
Theorem upstash_result_shape fetch this identifier :
  0 <= maxRequests this →
  ∃ r log,
    limit fetch this identifier = (Returns r, log) ∧
    0 <= remaining r ∧
    res_resetTime r = None ∧
    (success r = false → remaining r = 0) ∧
    (length log <= 1)%nat ∧
    (is_Some (incr_count fetch this identifier) → log = []).
Proof.
  intros Hmax.
  destruct (incr_count_or_exception fetch this identifier)
    as [(count & Hcount & _) | (e & He & Hnone)].
  - rewrite (limit_incr_count _ _ _ _ Hcount).
    eexists _, _. split; [done|]. unfold counted.
    case_bool_decide; simpl; repeat split; (done || lia || auto).
  - rewrite (limit_incr_exception _ _ _ _ He).
    eexists _, _. split; [done|]. unfold fail_open; simpl.
    repeat split; try (done || lia).
    rewrite Hnone. by intros [? ?].
Qed.

Lemma upstash_result_shape_witness :
  let this := mk "https://redis.example" "secret" 10 60 in
  let down : Fetch := λ _, Throws (mkError "TypeError" "fetch failed") in
  ∃ r log,
    limit down this "a" = (Returns r, log) ∧
    0 <= remaining r ∧
    res_resetTime r = None ∧
    (success r = false → remaining r = 0) ∧
    (length log <= 1)%nat ∧
    (is_Some (incr_count down this "a") → log = []).
Proof.
  intros this down.
  apply (upstash_result_shape down this "a"). simpl. lia.
Defined.

Lemma string_length_app (s t : string) :
  String.length (s +:+ t) = (String.length s + String.length t)%nat.
Proof.
  induction s as [|a s IH]; [done|].
  change (S (String.length (s +:+ t)) = S (String.length s + String.length t)).
  by rewrite IH.
Qed.

Lemma string_app_inj_r (t s1 s2 : string) :
  s1 +:+ t = s2 +:+ t → s1 = s2.
Proof.
  revert s2. induction s1 as [|a s1 IH]; intros [|b s2] Heq; [done|..].
  - apply (f_equal String.length) in Heq.
    rewrite !string_length_app in Heq. simpl in Heq. lia.
  - apply (f_equal String.length) in Heq.
    rewrite !string_length_app in Heq. simpl in Heq. lia.
  - change (String a (s1 +:+ t) = String b (s2 +:+ t)) in Heq.
    injection Heq as -> Heq. f_equal. by apply IH.
Qed.

(** X10. The limiter's requests keep identifiers apart: for one limiter,
    the increment requests of two identifiers are the same only when the
    identifiers are, and so are the expire requests; and no increment
    request is an expire request. All carry the method [GET] and the
    bearer token. *)
Theorem upstash_requests_keep_identifiers_apart this id1 id2 :
  (incr_request this id1 = incr_request this id2 → id1 = id2) ∧
  (expire_request this id1 = expire_request this id2 → id1 = id2) ∧
  incr_request this id1 ≠ expire_request this id2 ∧
  req_method (incr_request this id1) = "GET" ∧
  req_method (expire_request this id1) = "GET" ∧
  req_authorization (incr_request this id1) = "Bearer " +:+ token this ∧
  req_authorization (expire_request this id1) = "Bearer " +:+ token this.
Proof.
  unfold incr_request, expire_request.
  split; [|split; [|split]]; [| | |done].
  - intros [= Heq]. by repeat apply String.app_inj in Heq.
  - intros [= Heq].
    apply String.app_inj in Heq. apply String.app_inj in Heq.
    apply string_app_inj_r in Heq. by apply String.app_inj in Heq.
  - intros [= Heq]. apply String.app_inj in Heq. discriminate.
Qed.

End UpstashRateLimiter_more.

(** ** The error helpers *)

Section ApiResponse_more.
Import ApiResponse.
Context {T : Type}.

(** Each error helper answers with its own status code, whatever the
    message and the code: the envelope has [success = false], no data, the
    message given (the empty string included) or the helper's default when
    none is given, and the [code] only when it is not empty. *)
Lemma error_helpers_fix_the_status :
  Forall (λ '(helper, st, dflt),
            ∀ message c,
              let response : NextResponse T := helper message c in
              status response = st ∧
              success (body response) = false ∧
              data (body response) = None ∧
              error (body response) = Some (default dflt message) ∧
              code (body response) = (if truthy c then c else None))
    [(apiBadRequest, 400, "Bad request");
     (apiUnauthorized, 401, "Unauthorized");
     (apiForbidden, 403, "Forbidden");
     (apiNotFound, 404, "Not found");
     (apiConflict, 409, "Conflict");
     (apiTooManyRequests, 429, "Too many requests");
     (apiInternalError, 500, "Internal server error")].
Proof. repeat constructor. Qed.

End ApiResponse_more.

(** ** The CORS boundary: allow-list, preflight, other headers *)

Section Cors_more.
Import Cors.

Variable NEXT_PUBLIC_APP_URL : option string.

Implicit Types (σ : Heap) (h : HeaderMap) (request : NextRequest).

(** X11. The allow-list holds the two development origins and the
    configured application URL, which is left out when it is not set or
    empty; the empty string is never allowed. *)
Theorem allowed_origins_are o :
  o ∈ ALLOWED_ORIGINS NEXT_PUBLIC_APP_URL ↔
  o = "http://localhost:3000" ∨ o = "http://localhost:3001" ∨
  (NEXT_PUBLIC_APP_URL = Some o ∧ o ≠ "").
Proof.
  unfold ALLOWED_ORIGINS, filter_Boolean. rewrite list_elem_of_omap.
  split.
  - intros (v & Hv & Ht). rewrite !elem_of_cons in Hv.
    destruct Hv as [-> | [-> | [-> | Hv]]]; simpl in Ht.
    + left. by injection Ht.
    + right; left. by injection Ht.
    + right; right. destruct NEXT_PUBLIC_APP_URL as [u|]; [|done].
      simpl in Ht. destruct (String.eqb_spec u ""); simpl in Ht; [done|].
      injection Ht as <-. done.
    + by apply elem_of_nil in Hv.
  - intros [-> | [-> | [-> Hne]]].
    + exists (Some "http://localhost:3000"). split; [set_solver|done].
    + exists (Some "http://localhost:3001"). split; [set_solver|done].
    + exists (Some o). split; [set_solver|]. simpl.
      by destruct (String.eqb_spec o "").
Qed.

Lemma cors_headers_origin request h :
  header_get (cors_headers NEXT_PUBLIC_APP_URL request h)
             "Access-Control-Allow-Origin" =
    match header_get (req_headers request) "origin" with
    | Some o =>
      if bool_decide (o ∈ ALLOWED_ORIGINS NEXT_PUBLIC_APP_URL) then Some o
      else header_get h "Access-Control-Allow-Origin"
    | None => header_get h "Access-Control-Allow-Origin"
    end.
Proof.
  destruct (header_get (req_headers request) "origin") as [o|] eqn:Ho.
  - case_bool_decide as Hin.
    + by apply cors_headers_origin_allowed.
    + apply cors_headers_origin_other. right. by exists o.
  - apply cors_headers_origin_other. by left.
Qed.

Lemma withCorsHeaders_supplied_preserved σ request r R H r' σ' :
  responses σ !! r = Some R →
  headers_objs σ !! headers R = Some H →
  withCorsHeaders NEXT_PUBLIC_APP_URL request (Some r) σ = Some (r', σ') →
  preserved σ σ'.
Proof.
  intros HR HH. rewrite (withCorsHeaders_supplied _ σ request r R H HR HH).
  intros [= <- <-].
  set (h1 := fresh (dom (headers_objs σ))).
  set (h2 := fresh (dom (<[h1 := H]> (headers_objs σ)))).
  assert (Hh1 : headers_objs σ !! h1 = None) by apply fresh_headers_None.
  assert (Hh2 : <[h1 := H]> (headers_objs σ) !! h2 = None)
    by apply not_elem_of_dom, is_fresh.
  split; simpl.
  - intros l h Hl.
    assert (h1 ≠ l) by (intros <-; rewrite Hl in Hh1; discriminate).
    assert (h2 ≠ l).
    { intros <-. rewrite lookup_insert_ne, Hl in Hh2 by done. discriminate. }
    by rewrite !lookup_insert_ne by done.
  - intros l R0 Hl.
    assert (fresh (dom (responses σ)) ≠ l).
    { intros <-. rewrite fresh_response_None in Hl. discriminate. }
    by rewrite lookup_insert_ne by done.
Qed.

(** X12. The preflight answer, from any heap: a new response with status
    204, no body and no status text, whose headers are the three fixed
    ones and, when the request's origin is in the allow-list and only
    then, [Access-Control-Allow-Origin] with that origin; every object of
    the heap is as it was. *)
Theorem preflight_response σ request :
  ∃ r' σ' R' H',
    handleCorsPreFlight NEXT_PUBLIC_APP_URL request σ = Some (r', σ') ∧
    responses σ !! r' = None ∧
    responses σ' !! r' = Some R' ∧
    status R' = 204 ∧ body R' = None ∧ statusText R' = "" ∧
    headers_objs σ' !! headers R' = Some H' ∧
    H' = cors_headers NEXT_PUBLIC_APP_URL request ∅ ∧
    header_get H' "Access-Control-Allow-Origin" =
      match header_get (req_headers request) "origin" with
      | Some o =>
        if bool_decide (o ∈ ALLOWED_ORIGINS NEXT_PUBLIC_APP_URL) then Some o
        else None
      | None => None
      end ∧
    preserved σ σ'.
Proof.
  unfold handleCorsPreFlight.
  set (r0 := fresh (dom (responses σ))).
  set (h0 := fresh (dom (headers_objs σ))).
  set (σ0 := mkHeap (<[h0 := ∅]> (headers_objs σ))
                    (<[r0 := mkNextResponse None 204 "" h0]> (responses σ))).
  assert (Hr0 : responses σ0 !! r0 = Some (mkNextResponse None 204 "" h0))
    by (simpl; apply lookup_insert_eq).
  assert (Hh0 : headers_objs σ0 !! headers (mkNextResponse None 204 "" h0) = Some ∅)
    by (simpl; apply lookup_insert_eq).
  pose proof (withCorsHeaders_supplied NEXT_PUBLIC_APP_URL σ0 request r0 _ _ Hr0 Hh0)
    as Hcall. simpl in Hcall.
  eexists _, _, _, _. split.
  { erewrite St_bind_eq by apply new_NextResponse_empty. apply Hcall. }
  assert (Hfresh : fresh (dom (<[r0 := mkNextResponse None 204 "" h0]> (responses σ)))
                   ≠ r0).
  { intros E.
    pose proof (is_fresh (dom (<[r0 := mkNextResponse None 204 "" h0]> (responses σ))))
      as Hnot.
    rewrite E in Hnot. apply Hnot, elem_of_dom. rewrite lookup_insert_eq. eauto. }
  assert (Hnew : responses σ
                 !! fresh (dom (<[r0 := mkNextResponse None 204 "" h0]> (responses σ)))
                 = None).
  { pose proof (is_fresh (dom (<[r0 := mkNextResponse None 204 "" h0]> (responses σ))))
      as Hnot.
    apply not_elem_of_dom in Hnot. by rewrite lookup_insert_ne in Hnot. }
  split; [done|].
  simpl. split; [apply lookup_insert_eq|].
  do 3 (split; [reflexivity|]).
  split; [apply lookup_insert_eq|].
  split; [reflexivity|].
  split.
  { rewrite cors_headers_origin. unfold header_get at 2 3. rewrite lookup_empty.
    destruct (header_get (req_headers request) "origin"); [|done].
    by case_bool_decide. }
  (* the heap before the call is preserved through both allocations *)
  pose proof (withCorsHeaders_supplied_preserved σ0 request r0 _ _ _ _ Hr0 Hh0 Hcall)
    as [Hph Hpr].
  split.
  - intros l h Hl. apply Hph. simpl.
    rewrite lookup_insert_ne; [done|].
    intros <-. unfold h0 in Hl. rewrite fresh_headers_None in Hl. discriminate.
  - intros l R0 Hl. apply Hpr. simpl.
    rewrite lookup_insert_ne; [done|].
    intros <-. unfold r0 in Hl. rewrite fresh_response_None in Hl. discriminate.
Qed.

(** X13. Headers are carried over: a header of the supplied response
    whose name is not one of the four CORS names is on the returned
    response with the same value, and the returned response has no other
    header besides. *)
Theorem other_headers_are_carried_over σ request r R H :
  responses σ !! r = Some R →
  headers_objs σ !! headers R = Some H →
  ∃ r' σ' H',
    withCorsHeaders NEXT_PUBLIC_APP_URL request (Some r) σ = Some (r', σ') ∧
    headers_at σ' r' = Some H' ∧
    ∀ name,
      lower name ∉ ["access-control-allow-origin"; "access-control-allow-methods";
                    "access-control-allow-headers"; "access-control-max-age"] →
      header_get H' name = header_get H name.
Proof.
  intros HR HH. eexists _, _, _.
  split; [by apply (withCorsHeaders_supplied _ σ request r R H)|].
  split.
  - unfold headers_at. simpl. rewrite lookup_insert_eq. simpl.
    by rewrite lookup_insert_eq.
  - intros name. apply cors_headers_other_names.
Qed.

Lemma cors_headers_twice request h :
  cors_headers NEXT_PUBLIC_APP_URL request (cors_headers NEXT_PUBLIC_APP_URL request h)
  = cors_headers NEXT_PUBLIC_APP_URL request h.
Proof.
  apply map_eq. intros i. unfold cors_headers, header_set.
  cbn [lower ascii_lower]. simpl.
  destruct (_ && _); rewrite !lookup_insert; repeat case_decide; done.
Qed.

(** X14. Wrapping twice is wrapping once: when the response returned by
    [withCorsHeaders] is passed to it again with the same request, the
    second result has the headers, status, status text and body of the
    first. *)
Theorem wrapping_twice_changes_nothing σ request r R H :
  responses σ !! r = Some R →
  headers_objs σ !! headers R = Some H →
  ∃ r1 σ1 R1 r2 σ2 R2,
    withCorsHeaders NEXT_PUBLIC_APP_URL request (Some r) σ = Some (r1, σ1) ∧
    withCorsHeaders NEXT_PUBLIC_APP_URL request (Some r1) σ1 = Some (r2, σ2) ∧
    responses σ1 !! r1 = Some R1 ∧
    responses σ2 !! r2 = Some R2 ∧
    r2 ≠ r1 ∧
    status R2 = status R1 ∧ statusText R2 = statusText R1 ∧ body R2 = body R1 ∧
    headers_at σ2 r2 = headers_at σ1 r1 ∧
    headers_at σ2 r1 = headers_at σ1 r1.
Proof.
  intros HR HH.
  pose proof (withCorsHeaders_supplied NEXT_PUBLIC_APP_URL σ request r R H HR HH)
    as Hcall1. simpl in Hcall1.
  set (h1 := fresh (dom (headers_objs σ))) in *.
  set (h2 := fresh (dom (<[h1 := H]> (headers_objs σ)))) in *.
  set (r1 := fresh (dom (responses σ))) in *.
  set (R1 := mkNextResponse (body R) (status R) (statusText R) h2) in *.
  set (H1 := cors_headers NEXT_PUBLIC_APP_URL request H) in *.
  set (σ1 := mkHeap (<[h2 := H1]> (<[h1 := H]> (headers_objs σ)))
                    (<[r1 := R1]> (responses σ))) in *.
  assert (HR1 : responses σ1 !! r1 = Some R1) by (simpl; apply lookup_insert_eq).
  assert (HH1 : headers_objs σ1 !! headers R1 = Some H1)
    by (simpl; apply lookup_insert_eq).
  pose proof (withCorsHeaders_supplied NEXT_PUBLIC_APP_URL σ1 request r1 R1 H1 HR1 HH1)
    as Hcall2. simpl in Hcall2.
  assert (Hr2 : fresh (dom (responses σ1)) ≠ r1).
  { intros E. pose proof (fresh_response_None σ1) as Hn.
    rewrite E, HR1 in Hn. discriminate. }
  assert (Hh3 : fresh (dom (headers_objs σ1)) ≠ h2).
  { intros E. pose proof (fresh_headers_None σ1) as Hn.
    rewrite E in Hn. simpl in Hn. rewrite lookup_insert_eq in Hn. discriminate. }
  assert (Hh4 : fresh (dom (<[fresh (dom (headers_objs σ1)) := H1]> (headers_objs σ1)))
                ≠ h2).
  { intros E.
    pose proof (is_fresh (dom (<[fresh (dom (headers_objs σ1)) := H1]>
                                 (headers_objs σ1)))) as Hn.
    apply not_elem_of_dom in Hn. rewrite E in Hn.
    rewrite lookup_insert_ne in Hn by done. simpl in Hn.
    rewrite lookup_insert_eq in Hn. discriminate. }
  eexists r1, σ1, R1, _, _, _.
  split; [exact Hcall1|]. split; [exact Hcall2|].
  split; [exact HR1|].
  simpl. split; [apply lookup_insert_eq|].
  split; [done|].
  do 3 (split; [reflexivity|]).
  unfold headers_at. simpl.
  rewrite !lookup_insert_eq. simpl. rewrite !lookup_insert_eq.
  rewrite (lookup_insert_ne _ _ r1) by done. rewrite lookup_insert_eq. simpl.
  rewrite !(lookup_insert_ne _ _ h2) by done. rewrite lookup_insert_eq.
  split; [|done]. unfold H1. by rewrite cors_headers_twice.
Qed.

End Cors_more.

Section Cors_more_cases.
Import Cors.

Lemma other_headers_are_carried_over_witness :
  let APP_URL := Some "https://short.example" in
  let request := mkNextRequest {["origin" := "http://localhost:3000"]} in
  let H : HeaderMap := {["x-custom-header" := "custom-value"]} in
  let R := mkNextResponse (Some 1%positive) 200 "OK" 1%positive in
  let σ := mkHeap {[1%positive := H]} {[1%positive := R]} in
  ∃ r' σ' H',
    withCorsHeaders APP_URL request (Some 1%positive) σ = Some (r', σ') ∧
    headers_at σ' r' = Some H' ∧
    ∀ name,
      lower name ∉ ["access-control-allow-origin"; "access-control-allow-methods";
                    "access-control-allow-headers"; "access-control-max-age"] →
      header_get H' name = header_get H name.
Proof.
  intros APP_URL request H R σ.
  apply (other_headers_are_carried_over APP_URL σ request 1%positive R H);
    reflexivity.
Defined.

Lemma wrapping_twice_changes_nothing_witness :
  let APP_URL := Some "https://short.example" in
  let request := mkNextRequest {["origin" := "http://localhost:3000"]} in
  let H : HeaderMap := {["content-type" := "application/json"]} in
  let R := mkNextResponse (Some 1%positive) 201 "Created" 1%positive in
  let σ := mkHeap {[1%positive := H]} {[1%positive := R]} in
  ∃ r1 σ1 R1 r2 σ2 R2,
    withCorsHeaders APP_URL request (Some 1%positive) σ = Some (r1, σ1) ∧
    withCorsHeaders APP_URL request (Some r1) σ1 = Some (r2, σ2) ∧
    responses σ1 !! r1 = Some R1 ∧
    responses σ2 !! r2 = Some R2 ∧
    r2 ≠ r1 ∧
    status R2 = status R1 ∧ statusText R2 = statusText R1 ∧ body R2 = body R1 ∧
    headers_at σ2 r2 = headers_at σ1 r1 ∧
    headers_at σ2 r1 = headers_at σ1 r1.
Proof.
  intros APP_URL request H R σ.
  apply (wrapping_twice_changes_nothing APP_URL σ request 1%positive R H);
    reflexivity.
Defined.

End Cors_more_cases.

(** ** The route handlers *)

Section Routes_props.
Import Routes.
Context {W Body Link : Type}.
Variable c : Collaborators W Body Link.

Implicit Types (st : State W) (request : Cors.NextRequest).

Lemma call_returns {A B} (op : Op W A) (f : A → H W B) st a w :
  op (world st) = (Returns a, w) →
  (call op ≫= f) st = f a (mkState w (console st)).
Proof. intros Hop. unfold mbind, H_bind, call. by rewrite Hop. Qed.

Lemma call_throws {A B} (op : Op W A) (f : A → H W B) st e w :
  op (world st) = (Throws e, w) →
  (call op ≫= f) st = Some (Throws e, mkState w (console st)).
Proof. intros Hop. unfold mbind, H_bind, call. by rewrite Hop. Qed.

Lemma try_catch_returns {A} (body : H W A) handler st a st' :
  body st = Some (Returns a, st') →
  try_catch body handler st = Some (Returns a, st').
Proof. intros Hbody. unfold try_catch. by rewrite Hbody. Qed.

Lemma try_catch_throws {A} (body : H W A) handler st e st' :
  body st = Some (Throws e, st') →
  try_catch body handler st = handler e st'.
Proof. intros Hbody. unfold try_catch. by rewrite Hbody. Qed.

(** X16. The redirect handler counts no click for a link it refuses: when
    the code is unknown, the link is disabled, or it has an expiry date
    strictly before the clock, the answer is a 404 envelope with the
    matching message, the world is as the lookup left it and nothing is
    logged. *)
Theorem redirect_refusals_count_no_click request shortCode st url w :
  getLinkByCode c shortCode (world st) = (Returns url, w) →
  match url with
  | None => True
  | Some url =>
    isActive_of c url = false ∨
    ∃ expiresAt, expiresAt_of c url = Some expiresAt ∧ Date_now c w > expiresAt
  end →
  let message :=
    match url with
    | None => "Shortened URL not found"
    | Some url =>
      if isActive_of c url then "This link has expired"
      else "This link has been disabled"
    end in
  GET_redirect c request shortCode st =
    Some (Returns (WithCors request (ApiResponse.apiNotFound (Some message) None)),
          mkState w (console st)).
Proof.
  intros Hget Hrefused message. unfold GET_redirect.
  apply try_catch_returns.
  rewrite (call_returns (getLinkByCode c shortCode) _ _ _ _ Hget).
  destruct url as [url|]; [|done].
  unfold message.
  destruct (isActive_of c url) eqn:Hactive; simpl; [|done].
  destruct Hrefused as [|(expiresAt & Hexp & Hlate)]; [done|].
  unfold has_expired. rewrite Hexp.
  unfold mbind, H_bind, new_Date, mret, H_ret; simpl.
  by rewrite bool_decide_eq_true_2.
Qed.

(** X17. The redirect handler serves a link that is active and not past
    its expiry date, the date itself included: it counts one click and
    answers 200 with the link's [originalUrl] and [shortCode]; if counting
    the click throws, the answer is the 500 envelope and the exception is
    logged. *)
Theorem redirect_serves_live_links request shortCode st url w o w' :
  getLinkByCode c shortCode (world st) = (Returns (Some url), w) →
  isActive_of c url = true →
  (∀ expiresAt, expiresAt_of c url = Some expiresAt → Date_now c w <= expiresAt) →
  incrementClicks c shortCode w = (o, w') →
  GET_redirect c request shortCode st =
    match o with
    | Returns _ =>
      Some (Returns (WithCors request
                       (ApiResponse.apiSuccess
                          (mkRedirect (originalUrl_of c url) (shortCode_of c url))
                          None)),
            mkState w' (console st))
    | Throws e =>
      Some (Returns (WithCors request
                       (ApiResponse.apiInternalError
                          (Some "Internal server error") None)),
            mkState w' (console st ++ [("Redirect API error:", e)]))
    end.
Proof.
  intros Hget Hactive Hlive Hclick. unfold GET_redirect.
  assert (Hexp : ∀ st0, world st0 = w →
            has_expired c url st0 = Some (Returns false, st0)).
  { intros st0 Hw. unfold has_expired.
    destruct (expiresAt_of c url) as [expiresAt|] eqn:Hexp; [|done].
    unfold mbind, H_bind, new_Date, mret, H_ret; simpl. rewrite Hw.
    by rewrite bool_decide_eq_false_2 by (specialize (Hlive _ eq_refl); lia). }
  destruct o as [[]|e].
  - apply try_catch_returns.
    rewrite (call_returns (getLinkByCode c shortCode) _ _ _ _ Hget). rewrite Hactive; simpl.
    unfold mbind at 1, H_bind at 1. rewrite Hexp by done.
    by rewrite (call_returns (incrementClicks c shortCode) _ (mkState w (console st)) _ _ Hclick).
  - rewrite (try_catch_throws _ _ st e (mkState w' (console st))); [reflexivity|].
    rewrite (call_returns (getLinkByCode c shortCode) _ _ _ _ Hget). rewrite Hactive; simpl.
    unfold mbind at 1, H_bind at 1. rewrite Hexp by done.
    by rewrite (call_throws (incrementClicks c shortCode) _ (mkState w (console st)) _ _ Hclick).
Qed.

(** *** [generateShortCode] *)

Lemma all_chars_app P (s t : string) :
  all_chars P (s +:+ t) = all_chars P s && all_chars P t.
Proof.
  unfold all_chars. induction s as [|a s IH]; [done|].
  change (String a s +:+ t) with (String a (s +:+ t)). simpl.
  by rewrite IH, andb_assoc.
Qed.

Lemma charAt_chars k :
  (0 <= k < 62 ∧ ∃ ch, charAt chars k = String ch "" ∧ is_alnum ch = true) ∨
  (¬ (0 <= k < 62) ∧ charAt chars k = "").
Proof.
  unfold charAt. case_bool_decide as Hk; [|right; split; [lia|done]].
  destruct (decide (k < 62)) as [Hlt|Hge].
  - left. split; [lia|].
    assert (Hn : (Z.to_nat k < 62)%nat) by lia.
    revert Hn. generalize (Z.to_nat k). intros n Hn.
    do 62 (destruct n as [|n]; [vm_compute; eauto|]). lia.
  - right. split; [lia|].
    assert (Hn : (62 <= Z.to_nat k)%nat) by lia.
    revert Hn. generalize (Z.to_nat k). intros n Hn.
    do 62 (destruct n as [|n]; [lia|]). simpl. by destruct n.
Qed.

Lemma lower_alnum ch :
  is_alnum ch = true → is_lower_alnum (Cors.ascii_lower ch) = true.
Proof.
  destruct ch as [[] [] [] [] [] [] [] []]; vm_compute; done.
Qed.

Lemma toLowerCase_alnum (s : string) :
  all_chars is_alnum s = true → all_chars is_lower_alnum (toLowerCase s) = true.
Proof.
  unfold all_chars, toLowerCase. induction s as [|a s IH]; [done|]. simpl.
  intros [Ha Hs]%andb_prop. by rewrite lower_alnum, IH.
Qed.

Lemma generate_from_spec n :
  ∀ result st,
    ∃ code st',
      generate_from c n result st = Some (Returns code, st') ∧
      console st' = console st ∧
      (all_chars is_alnum result = true → all_chars is_alnum code = true) ∧
      (String.length code <= String.length result + n)%nat ∧
      (String.length result <= String.length code)%nat ∧
      ((∀ w, 0 <= (random_index c w).1 < 62) →
       String.length code = (String.length result + n)%nat).
Proof.
  induction n as [|n IH]; intros result st.
  - exists result, st. simpl. repeat split; (done || lia).
  - cbn [generate_from]. unfold mbind at 1, H_bind at 1, draw.
    destruct (random_index c (world st)) as [k w] eqn:Hk.
    destruct (IH (result +:+ charAt chars k) (mkState w (console st)))
      as (code & st' & -> & Hcon & Halnum & Hle & Hge & Heq).
    exists code, st'. split; [done|]. split; [done|].
    rewrite string_length_app in *.
    destruct (charAt_chars k) as [(Hin & ch & Hch & Hal) | (Hout & Hch)];
      rewrite Hch in *; simpl in *.
    + split; [|split; [lia|split; [lia|]]].
      * intros Hres. apply Halnum. rewrite all_chars_app, Hres.
        unfold all_chars; simpl. by rewrite Hal.
      * intros Hrange. rewrite (Heq Hrange). lia.
    + split; [|split; [lia|split; [lia|]]].
      * intros Hres. apply Halnum. by rewrite all_chars_app, Hres.
      * intros Hrange. specialize (Hrange (world st)). rewrite Hk in Hrange.
        simpl in Hrange. lia.
Qed.

(** X15. [generateShortCode] returns, never throws and logs nothing; the
    code is made of ASCII letters and digits only, so its lower-case form
    is made of lower-case letters and digits; it has at most [length]
    characters (8 by default, none for a negative [length]), and exactly
    [length] when every random index is in the range of [chars]. *)
Theorem generated_code_is_alphanumeric length st :
  ∃ code st',
    generateShortCode c length st = Some (Returns code, st') ∧
    console st' = console st ∧
    all_chars is_alnum code = true ∧
    all_chars is_lower_alnum (toLowerCase code) = true ∧
    (String.length code <= Z.to_nat (default 8%Z length))%nat ∧
    ((∀ w, 0 <= (random_index c w).1 < 62) →
     String.length code = Z.to_nat (default 8 length)).
Proof.
  unfold generateShortCode.
  destruct (generate_from_spec (Z.to_nat (default 8 length)) "" st)
    as (code & st' & Hrun & Hcon & Halnum & Hle & _ & Heq).
  exists code, st'. split; [done|]. split; [done|].
  split; [by apply Halnum|].
  split; [by apply toLowerCase_alnum, Halnum|].
  split; [done|]. done.
Qed.

(** A generated code, as the loop of [POST] uses it. *)
Lemma generated_code_parts st :
  ∃ code st',
    generateShortCode c None st = Some (Returns code, st') ∧
    console st' = console st ∧
    all_chars is_lower_alnum (toLowerCase code) = true.
Proof.
  unfold generateShortCode.
  destruct (generate_from_spec (Z.to_nat (default 8 None)) "" st)
    as (code & st' & Hrun & Hcon & Halnum & _).
  exists code, st'. split; [done|]. split; [done|].
  by apply toLowerCase_alnum, Halnum.
Qed.

(** *** What the handlers answer *)

Ltac run_handler :=
  unfold try_catch, mbind, H_bind, call, mret, H_ret, console_error, throw,
    has_expired, new_Date;
  repeat (case_match; simplify_eq/=).

Ltac settle :=
  repeat match goal with
         | H : negb _ = true |- _ => apply negb_true_iff in H
         | H : negb _ = false |- _ => apply negb_false_iff in H
         end;
  simplify_eq/=; congruence.

Ltac answered :=
  eexists _, _; split; [reflexivity|]; apply list_elem_of_In; simpl; tauto.

(** X18. No handler raises: whatever its collaborators return or throw,
    each one answers, with a status from its own list. ([POST] answers
    unless its loop is still drawing codes after the rounds it was
    given.) *)
Theorem handlers_always_answer request st :
  (∀ shortCode, ∃ reply st',
     GET_redirect c request shortCode st = Some (Returns reply, st') ∧
     reply_status reply ∈ [200; 404; 500]) ∧
  (∀ id, ∃ reply st',
     DELETE_link c request id st = Some (Returns reply, st') ∧
     reply_status reply ∈ [200; 401; 403; 404; 500]) ∧
  (∀ id, ∃ reply st',
     GET_link c request id st = Some (Returns reply, st') ∧
     reply_status reply ∈ [200; 401; 404; 500]) ∧
  (∃ reply st',
     GET_links c request st = Some (Returns reply, st') ∧
     reply_status reply ∈ [200; 401; 500]) ∧
  (∀ env rounds,
     POST c env rounds request st = None ∨
     ∃ reply st',
       POST c env rounds request st = Some (Returns reply, st') ∧
       reply_status reply ∈ [201; 400; 401; 409; 429; 500]).
Proof.
  split; [|split; [|split; [|split]]].
  - intros shortCode. unfold GET_redirect. run_handler; answered.
  - intros id. unfold DELETE_link. run_handler; answered.
  - intros id. unfold GET_link. run_handler; answered.
  - unfold GET_links. run_handler; answered.
  - intros env rounds. unfold POST.
    unfold try_catch.
    match goal with |- context [match ?b st with _ => _ end] =>
      destruct (b st) as [[[reply|e] st']|] eqn:Hbody end.
    + right. exists reply, st'. split; [done|].
      revert Hbody. run_handler; intros; simplify_eq/=;
        apply list_elem_of_In; simpl; tauto.
    + right. run_handler. answered.
    + by left.
Qed.

(** X19. [DELETE] reaches [deactivateLinkById] for the owner only. Signed
    out, the answer is 401 and the store is not read; for an unknown id
    it is 404 and for a link of another user 403, the world being as the
    lookup left it; for the owner the link is deactivated and the answer
    is 200. Nothing is logged on these paths. *)
Theorem delete_is_for_the_owner request id st userId w :
  auth c (world st) = (Returns userId, w) →
  (truthy userId = false →
   DELETE_link c request id st =
     Some (Returns (WithCors request
                      (ApiResponse.apiUnauthorized (Some "Authentication required") None)),
           mkState w (console st))) ∧
  (∀ user url w',
     userId = Some user → user ≠ "" →
     getLinkById c id w = (Returns url, w') →
     match url with
     | None =>
       DELETE_link c request id st =
         Some (Returns (WithCors request
                          (ApiResponse.apiNotFound (Some "Shortened URL not found") None)),
               mkState w' (console st))
     | Some url =>
       (userId_of c url ≠ user →
        DELETE_link c request id st =
          Some (Returns (WithCors request
                           (ApiResponse.apiForbidden
                              (Some "This URL does not belong to you") None)),
                mkState w' (console st))) ∧
       (userId_of c url = user →
        ∀ w'', deactivateLinkById c id user w' = (Returns tt, w'') →
        DELETE_link c request id st =
          Some (Returns (WithCors request
                           (ApiResponse.apiSuccess
                              (mkMessage "URL deleted successfully") None)),
                mkState w'' (console st)))
     end).
Proof.
  intros Hauth. split.
  - intros Hout. unfold DELETE_link. run_handler; settle.
  - intros user url w' -> Huser Hget.
    assert (Htruthy : truthy (Some user) = true).
    { simpl. by destruct (String.eqb_spec user ""). }
    destruct url as [url|].
    + split.
      * intros Hother. apply String.eqb_neq in Hother.
        unfold DELETE_link. run_handler; settle.
      * intros Howner w'' Hdel. apply String.eqb_eq in Howner.
        unfold DELETE_link. run_handler; settle.
    + unfold DELETE_link. run_handler; settle.
Qed.


(** *** [POST]: the short code *)

Lemma ascii_lower_twice ch :
  Cors.ascii_lower (Cors.ascii_lower ch) = Cors.ascii_lower ch.
Proof. destruct ch as [[] [] [] [] [] [] [] []]; reflexivity. Qed.

Lemma toLowerCase_twice (s : string) :
  toLowerCase (toLowerCase s) = toLowerCase s.
Proof.
  unfold toLowerCase. induction s as [|a s IH]; [done|]. simpl.
  by rewrite ascii_lower_twice, IH.
Qed.

Lemma until_unused_spec rounds :
  ∀ code st code' st',
    until_unused c rounds code st = Some (Returns code', st') →
    (∃ w, checkShortCodeExists c code' w = (Returns false, world st')) ∧
    console st' = console st ∧
    (code' = code ∨ all_chars is_lower_alnum code' = true).
Proof.
  induction rounds as [|rounds IH]; intros code st code' st'; [done|].
  cbn [until_unused]. unfold mbind at 1, H_bind at 1, call.
  destruct (checkShortCodeExists c code (world st)) as [[[]|e] w] eqn:Hcheck;
    [| |done].
  - unfold mbind at 1, H_bind at 1.
    destruct (generated_code_parts (mkState w (console st)))
      as (gen & st1 & -> & Hcon1 & Hlow).
    intros Hrest. apply IH in Hrest as (Hfree & Hcon & Hcode).
    split; [done|]. split; [by rewrite Hcon, Hcon1|].
    right. by destruct Hcode as [->|].
  - unfold mret, H_ret. intros [= <- <-]. simpl.
    split; [by exists (world st)|]. split; [done|]. by left.
Qed.

(** X21. The loop that looks for an unused code returns a code only
    right after the store has reported that code as unused, and logs
    nothing; the code is the one it started from or a generated one, in
    lower-case letters and digits. When the first answer of the store is
    "unused", the loop returns the code it started from. *)
Theorem loop_returns_a_code_reported_unused rounds code st :
  (∀ code' st',
     until_unused c rounds code st = Some (Returns code', st') →
     (∃ w, checkShortCodeExists c code' w = (Returns false, world st')) ∧
     console st' = console st ∧
     (code' = code ∨ all_chars is_lower_alnum code' = true)) ∧
  (∀ w,
     checkShortCodeExists c code (world st) = (Returns false, w) →
     until_unused c (S rounds) code st =
       Some (Returns code, mkState w (console st))).
Proof.
  split.
  - intros code' st'. apply until_unused_spec.
  - intros w Hcheck. cbn [until_unused].
    by rewrite (call_returns (checkShortCodeExists c code) _ _ _ _ Hcheck).
Qed.

(** X22. The loop never gives up: while the store reports every code as
    used, it keeps drawing codes, and it is still running after any
    number of rounds; it neither returns nor throws. *)
Theorem loop_has_no_bound rounds code st :
  (∀ code w, ∃ w', checkShortCodeExists c code w = (Returns true, w')) →
  until_unused c rounds code st = None.
Proof.
  intros Hfull. revert code st.
  induction rounds as [|rounds IH]; intros code st; [done|].
  cbn [until_unused].
  destruct (Hfull code (world st)) as [w Hcheck].
  rewrite (call_returns (checkShortCodeExists c code) _ _ _ _ Hcheck).
  unfold mbind at 1, H_bind at 1.
  destruct (generated_code_parts (mkState w (console st)))
    as (gen & st1 & -> & _ & _).
  apply IH.
Qed.

(** X23. [POST] with a custom alias: the alias is put in lower case; when
    the store has it already the answer is 409 and nothing is created;
    otherwise the link is created with the lower-case alias as short code
    and as alias, no code is drawn, and the answer is 201 with the link
    and its short URL. *)
Theorem post_with_a_custom_alias
    env rounds request st r w1 user w2 body w3 data alias taken w4 :
  limit c (client_ip request) (world st) = (Returns r, w1) →
  success r = true →
  auth c w1 = (Returns (Some user), w2) →
  user ≠ "" →
  request_json c request w2 = (Returns body, w3) →
  safeParse c body = ParseSuccess data →
  cl_customAlias data = Some alias →
  toLowerCase alias ≠ "" →
  checkCustomAliasExists c (toLowerCase alias) w3 = (Returns taken, w4) →
  if taken then
    POST c env rounds request st =
      Some (Returns (WithCors request
                       (ApiResponse.apiConflict
                          (Some "Custom alias already in use") None)),
            mkState w4 (console st))
  else
    ∀ link w5,
      createLink c user (cl_originalUrl data) (toLowerCase alias)
                 (Some (toLowerCase alias)) (cl_description data) w4
        = (Returns link, w5) →
      POST c env rounds request st =
        Some (Returns (WithCors request
                         (ApiResponse.apiSuccess
                            (mkCreated link
                               (default "undefined" env +:+ "/l/"
                                +:+ toLowerCase alias))
                            (Some 201))),
              mkState w5 (console st)).
Proof.
  intros Hlimit Hok Hauth Huser Hjson Hparse Halias Hne Hcheck.
  assert (Htu : truthy (Some user) = true).
  { simpl. by destruct (String.eqb_spec user ""). }
  assert (Hta : truthy (Some (toLowerCase alias)) = true).
  { simpl. by destruct (String.eqb_spec (toLowerCase alias) ""). }
  unfold POST, try_catch.
  rewrite (call_returns (limit c (client_ip request)) _ _ _ _ Hlimit).
  rewrite Hok. cbn [negb].
  rewrite (call_returns (auth c) _ (mkState w1 (console st)) _ _ Hauth).
  rewrite Htu. cbn [negb].
  rewrite (call_returns (request_json c request) _ (mkState w2 (console st)) _ _ Hjson).
  rewrite Hparse, Halias. cbn [fmap option_fmap option_map]. rewrite Hta.
  cbn [default negb].
  rewrite (call_returns (checkCustomAliasExists c (toLowerCase alias)) _
             (mkState w3 (console st)) _ _ Hcheck).
  destruct taken; [done|].
  intros link w5 Hcreate.
  unfold mbind at 1, H_bind at 1, mret at 1, H_ret at 1.
  unfold mbind at 1, H_bind at 1, mret at 1, H_ret at 1.
  unfold id. rewrite toLowerCase_twice. simpl console.
  by rewrite (call_returns (createLink c user _ _ _ _) _
                (mkState w4 (console st)) _ _ Hcreate).
Qed.

(** X24. [POST] answers a body that the schema rejects with 400 and the
    message of the first issue; the store is not consulted. *)
Theorem post_rejects_an_invalid_body
    env rounds request st r w1 user w2 body w3 issue issues :
  limit c (client_ip request) (world st) = (Returns r, w1) →
  success r = true →
  auth c w1 = (Returns (Some user), w2) →
  user ≠ "" →
  request_json c request w2 = (Returns body, w3) →
  safeParse c body = ParseFailure (issue :: issues) →
  POST c env rounds request st =
    Some (Returns (WithCors request (ApiResponse.apiBadRequest (Some issue) None)),
          mkState w3 (console st)).
Proof.
  intros Hlimit Hok Hauth Huser Hjson Hparse.
  assert (Htu : truthy (Some user) = true).
  { simpl. by destruct (String.eqb_spec user ""). }
  unfold POST, try_catch.
  rewrite (call_returns (limit c (client_ip request)) _ _ _ _ Hlimit).
  rewrite Hok. cbn [negb].
  rewrite (call_returns (auth c) _ (mkState w1 (console st)) _ _ Hauth).
  rewrite Htu. cbn [negb].
  rewrite (call_returns (request_json c request) _ (mkState w2 (console st)) _ _ Hjson).
  by rewrite Hparse.
Qed.

(** X25. Unlike the other handlers, the listing handler answers a failure
    of its collaborators with a bare [{ error }] body and status 500,
    built without the envelope and without [withCorsHeaders]; the
    exception is logged. *)
Theorem listing_failure_is_a_bare_answer request st e w :
  auth c (world st) = (Throws e, w) ∨
  (∃ user w1, auth c (world st) = (Returns (Some user), w1) ∧ user ≠ "" ∧
              getUserLinks c user w1 = (Throws e, w)) →
  GET_links c request st =
    Some (Returns (Plain "An error occurred while processing your request" 500),
          mkState w (console st ++ [("API error:", e)])).
Proof.
  intros [Hauth | (user & w1 & Hauth & Huser & Hlinks)].
  - unfold GET_links. run_handler; settle.
  - assert (Htu : truthy (Some user) = true).
    { simpl. by destruct (String.eqb_spec user ""). }
    unfold GET_links. run_handler; settle.
Qed.

End Routes_props.

(** ** The route handlers in the stand-in world *)

Section Routes_cases.
Import Routes RoutesFake.

Lemma redirect_refusals_count_no_click_witness :
  let request := Cors.mkNextRequest ∅ in
  let st := mkState a_world [] in
  GET_redirect (fake false) request "gone" st =
    Some (Returns (WithCors request
                     (ApiResponse.apiNotFound (Some "Shortened URL not found") None)),
          mkState a_world []).
Proof.
  intros request st.
  apply (redirect_refusals_count_no_click (fake false) request "gone" st None a_world).
  - reflexivity.
  - exact I.
Defined.

Lemma redirect_serves_live_links_witness :
  let request := Cors.mkNextRequest ∅ in
  let st := mkState a_world [] in
  GET_redirect (fake false) request "abc123" st =
    Some (Returns (WithCors request
                     (ApiResponse.apiSuccess
                        (mkRedirect "https://example.com" "abc123") None)),
          mkState (with_click a_world "abc123") []).
Proof.
  intros request st.
  apply (redirect_serves_live_links (fake false) request "abc123" st
           (mkFakeLink "abc123" "user-1" "https://example.com" true (Some 5000))
           a_world (Returns tt) (with_click a_world "abc123")).
  - reflexivity.
  - reflexivity.
  - intros expiresAt [= <-]. simpl. lia.
  - reflexivity.
Defined.

(** At the expiry date itself the link is still served; one millisecond
    later it is not. *)
Example redirect_at_the_expiry_date :
  let request := Cors.mkNextRequest ∅ in
  let at_time now :=
    mkState (mkFakeWorld None true now None
               [mkFakeLink "abc123" "user-1" "https://example.com" true (Some 5000)]
               [] 0) [] in
  (λ r, reply_status r.1)
    <$> (match GET_redirect (fake false) request "abc123" (at_time 5000) with
         | Some (Returns r, st') => Some (r, st')
         | _ => None
         end) = Some 200 ∧
  (λ r, reply_status r.1)
    <$> (match GET_redirect (fake false) request "abc123" (at_time 5001) with
         | Some (Returns r, st') => Some (r, st')
         | _ => None
         end) = Some 404.
Proof. split; vm_compute; reflexivity. Qed.

Lemma delete_is_for_the_owner_witness :
  let request := Cors.mkNextRequest ∅ in
  let st := mkState a_world [] in
  let c := fake false in
  (truthy (Some "user-1") = false →
   DELETE_link c request "abc123" st =
     Some (Returns (WithCors request
                      (ApiResponse.apiUnauthorized (Some "Authentication required") None)),
           mkState a_world (console st))) ∧
  (∀ user url w',
     Some "user-1" = Some user → user ≠ "" →
     getLinkById c "abc123" a_world = (Returns url, w') →
     match url with
     | None =>
       DELETE_link c request "abc123" st =
         Some (Returns (WithCors request
                          (ApiResponse.apiNotFound (Some "Shortened URL not found") None)),
               mkState w' (console st))
     | Some url =>
       (userId_of c url ≠ user →
        DELETE_link c request "abc123" st =
          Some (Returns (WithCors request
                           (ApiResponse.apiForbidden
                              (Some "This URL does not belong to you") None)),
                mkState w' (console st))) ∧
       (userId_of c url = user →
        ∀ w'', deactivateLinkById c "abc123" user w' = (Returns tt, w'') →
        DELETE_link c request "abc123" st =
          Some (Returns (WithCors request
                           (ApiResponse.apiSuccess
                              (mkMessage "URL deleted successfully") None)),
                mkState w'' (console st)))
     end).
Proof.
  intros request st c.
  apply (delete_is_for_the_owner c request "abc123" st (Some "user-1") a_world).
  reflexivity.
Defined.

(** The owner's [DELETE] in the stand-in world: the link is kept and
    marked inactive. *)
Example delete_by_the_owner :
  let request := Cors.mkNextRequest ∅ in
  match DELETE_link (fake false) request "abc123" (mkState a_world []) with
  | Some (Returns reply, st') =>
    reply_status reply = 200 ∧
    fw_links (world st') =
      [mkFakeLink "abc123" "user-1" "https://example.com" false (Some 5000)]
  | _ => False
  end.
Proof. vm_compute. done. Qed.


Lemma loop_has_no_bound_witness :
  until_unused (fake true) 5 "abc123" (mkState a_world []) = None.
Proof.
  apply (loop_has_no_bound (fake true) 5 "abc123" (mkState a_world [])).
  intros code w. exists w. reflexivity.
Defined.

Lemma post_with_a_custom_alias_witness :
  let request := Cors.mkNextRequest ∅ in
  let st := mkState a_world [] in
  let link := mkFakeLink "my-alias" "user-1" "https://example.com/page" true None in
  POST (fake false) (Some "https://short.example") 3 request st =
    Some (Returns (WithCors request
                     (ApiResponse.apiSuccess
                        (mkCreated link
                           (default "undefined" (Some "https://short.example")
                            +:+ "/l/" +:+ toLowerCase "My-Alias"))
                        (Some 201))),
          mkState (with_links a_world (link :: fw_links a_world)) (console st)).
Proof.
  intros request st link.
  apply (post_with_a_custom_alias (fake false) (Some "https://short.example") 3
           request st (mkResult true 0 None) a_world "user-1" a_world
           (fw_body a_world) a_world
           (mkCreateLinkData "https://example.com/page" (Some "My-Alias") None None)
           "My-Alias" false a_world);
    try reflexivity; discriminate.
Defined.

(** The same request, run: the short URL and the stored link. *)
Example post_with_a_custom_alias_run :
  let request := Cors.mkNextRequest ∅ in
  match POST (fake false) (Some "https://short.example") 3 request
             (mkState a_world []) with
  | Some (Returns (WithCors _ response), st') =>
    ApiResponse.status response = 201 ∧
    (shortUrl <$> ApiResponse.data (ApiResponse.body response))
      = Some "https://short.example/l/my-alias" ∧
    fl_code <$> fw_links (world st') = ["my-alias"; "abc123"]
  | _ => False
  end.
Proof. vm_compute. done. Qed.

Lemma post_rejects_an_invalid_body_witness :
  let request := Cors.mkNextRequest ∅ in
  let w := mkFakeWorld (Some "user-1") true 1000 None [] [] 0 in
  let st := mkState w [] in
  POST (fake false) None 3 request st =
    Some (Returns (WithCors request
                     (ApiResponse.apiBadRequest (Some "Invalid URL format") None)),
          mkState w (console st)).
Proof.
  intros request w st.
  apply (post_rejects_an_invalid_body (fake false) None 3 request st
           (mkResult true 0 None) w "user-1" w None w "Invalid URL format" []);
    try reflexivity; discriminate.
Defined.

(** A code drawn in the stand-in world: eight characters. *)
Example generated_code_example :
  match generateShortCode (fake false) None (mkState a_world []) with
  | Some (Returns code, _) => code = "dkryFMT0"
  | _ => False
  end.
Proof. vm_compute. reflexivity. Qed.

Lemma listing_failure_is_a_bare_answer_witness :
  let request := Cors.mkNextRequest ∅ in
  let c := mkCollaborators unit unit unit
             (λ w, (Throws (mkError "Error" "clerk is down"), w))
             (λ _ w, (Returns (mkResult true 0 None), w))
             (λ _ w, (Returns tt, w)) (λ _, ParseFailure [])
             (λ _ w, (Returns false, w)) (λ _ w, (Returns false, w))
             (λ _ _ _ _ _ w, (Returns tt, w)) (λ _ w, (Returns [], w))
             (λ _ w, (Returns None, w)) (λ _ w, (Returns tt, w))
             (λ _ w, (Returns None, w)) (λ _ _ w, (Returns None, w))
             (λ _ _ w, (Returns tt, w)) (λ w, (0, w)) (λ _, 0)
             (λ _, "") (λ _, "") (λ _, "") (λ _, true) (λ _, None) in
  GET_links c request (mkState tt []) =
    Some (Returns (Plain "An error occurred while processing your request" 500),
          mkState tt ([] ++ [("API error:", mkError "Error" "clerk is down")])).
Proof.
  intros request c.
  apply (listing_failure_is_a_bare_answer c request (mkState tt [])
           (mkError "Error" "clerk is down") tt).
  left. reflexivity.
Defined.

(** The identifier of the rate limit, lines 52-54: the first of the
    two headers that is present, or the loopback address. [??] passes an
    empty header on. *)
Example client_ip_examples :
  client_ip (Cors.mkNextRequest {["x-forwarded-for" := "1.2.3.4";
                                  "x-real-ip" := "5.6.7.8"]}) = "1.2.3.4" ∧
  client_ip (Cors.mkNextRequest {["x-real-ip" := "5.6.7.8"]}) = "5.6.7.8" ∧
  client_ip (Cors.mkNextRequest ∅) = "127.0.0.1" ∧
  client_ip (Cors.mkNextRequest {["x-forwarded-for" := "";
                                  "x-real-ip" := "5.6.7.8"]}) = "".
Proof. repeat split. Qed.

End Routes_cases.
